(** * Posterior prevalence density: a shallow embedding of [posterior]

    The JavaScript function [posterior] of [js/prevalence.js] draws [N]
    pairs of false- and true-positive rates by rejection sampling, turns each
    pair into a Jacobian factor, and integrates a beta density over a grid of
    [M+1] prevalence values with compensated summation before normalising.
    The copy of the function in the page script also accepts a weight [w],
    which it never reads.

    The embedding is written once, over an interface of JavaScript numbers,
    and is read at two instances:
    - IEEE 754 binary64 ([PrimFloat.float]), the numbers the program runs on;
    - the real numbers, the exact arithmetic in which the numerical
      identities of the program are stated.

    The jStat functions the program calls ([jStat.beta.sample], [jStat.ibeta],
    [jStat.beta.pdf]) belong to an external library and are parameters; what
    a result needs of them is a premise of that result.

    The [while] loop of the sampler has no bound, so the embedding carries
    fuel: [None] says that a rejection loop needed more iterations than the
    fuel allows, and more fuel never changes a result. *)

From Stdlib Require Import ZArith Reals Lra Lia Floats Uint63.
From stdpp Require Import base option list.

(** ** JavaScript numbers *)

(** The operations [posterior] performs on numbers.  [of_nat] is the value of
    a loop counter or of an array's [length] as a number; [undef] is what
    [undefined] (an array read out of range) becomes in arithmetic. *)
Class JSNumber (num : Type) : Type := {
  zero : num;
  one : num;
  of_nat : nat -> num;
  add : num -> num -> num;
  sub : num -> num -> num;
  mul : num -> num -> num;
  div : num -> num -> num;
  geb : num -> num -> bool;
  undef : num
}.

Declare Scope js_scope.
Delimit Scope js_scope with js.
Infix "+" := add : js_scope.
Infix "-" := sub : js_scope.
Infix "*" := mul : js_scope.
Infix "/" := div : js_scope.
Infix ">=?" := geb (at level 70) : js_scope.

(** Binary64: [u >= v] is [v <= u]; a counter below [2^53] converts exactly;
    [undefined] coerces to [NaN]. *)
#[export] Instance float_number : JSNumber float := {
  zero := PrimFloat.zero;
  one := PrimFloat.one;
  of_nat := fun i => PrimFloat.of_uint63 (Uint63.of_Z (Z.of_nat i));
  add := PrimFloat.add;
  sub := PrimFloat.sub;
  mul := PrimFloat.mul;
  div := PrimFloat.div;
  geb := fun x y => PrimFloat.leb y x;
  undef := PrimFloat.nan
}.

#[export] Instance Rge_decision (x y : R) : Decision (x >= y)%R := Rge_dec x y.

(** Exact arithmetic.  The reals have no [NaN]: [undef] is [0] there, and it
    is never read, since every array read of [posterior] is in range. *)
#[export] Instance real_number : JSNumber R := {
  zero := 0%R;
  one := 1%R;
  of_nat := INR;
  add := Rplus;
  sub := Rminus;
  mul := Rmult;
  div := Rdiv;
  geb := fun x y => bool_decide (x >= y)%R;
  undef := 0%R
}.

(** ** Arrays *)

(** [a[i]] read as a number, [a[i] = x] and [a.push(x)]. A write past the
    end extends the array, the skipped slots reading as [undefined]. *)
Definition array_get {num} `{JSNumber num} (a : list num) (i : nat) : num :=
  default undef (a !! i).

Definition array_set {num} `{JSNumber num} (a : list num) (i : nat) (x : num)
  : list num :=
  if decide (i < length a) then <[i := x]> a
  else a ++ replicate (i - length a) undef ++ [x].

Definition push {A} (a : list A) (x : A) : list A := a ++ [x].

(** ** The request and the jStat collaborators *)

Module Request.
(** The argument object. A field that has a default in the parameter list
    is optional; [N] and [M] are counts. *)
Record t (num : Type) : Type := mk {
  n : num;
  k : num;
  n_u : num;
  k_u : num;
  n_v : num;
  k_v : num;
  N : option nat;
  M : option nat;
  a_u : option num;
  b_u : option num;
  a_v : option num;
  b_v : option num
}.
Arguments mk {num}.
Arguments n {num}. Arguments k {num}.
Arguments n_u {num}. Arguments k_u {num}.
Arguments n_v {num}. Arguments k_v {num}.
Arguments N {num}. Arguments M {num}.
Arguments a_u {num}. Arguments b_u {num}.
Arguments a_v {num}. Arguments b_v {num}.
End Request.

(** [jStat.beta.sample(a, b)] consumes the random source, whose state is
    threaded explicitly. *)
Record JStat (num rng : Type) : Type := {
  beta_sample : num -> num -> rng -> num * rng;
  ibeta : num -> num -> num -> num;
  beta_pdf : num -> num -> num -> num
}.
Arguments beta_sample {num rng}.
Arguments ibeta {num rng}.
Arguments beta_pdf {num rng}.

(** ** The program *)

Section Posterior.
Context {num : Type} `{JSNumber num} {rng : Type} (jStat : JStat num rng).
Local Open Scope js_scope.

(** The three parallel arrays [us], [vs], [duvs]. *)
Record samples : Type := Samples {
  us : list num;
  vs : list num;
  duvs : list num
}.

(** The parameter list [{n, k, n_u, k_u, n_v, k_v, N=1000, M=1000, a_u=1,
    b_u=1, a_v=1, b_v=1}]: the names the body uses, defaults applied. *)
Section Body.
Variable r : Request.t num.
Local Abbreviation n := (Request.n r).
Local Abbreviation k := (Request.k r).
Local Abbreviation n_u := (Request.n_u r).
Local Abbreviation k_u := (Request.k_u r).
Local Abbreviation n_v := (Request.n_v r).
Local Abbreviation k_v := (Request.k_v r).
Local Abbreviation N := (default 1000 (Request.N r)).
Local Abbreviation M := (default 1000 (Request.M r)).
Local Abbreviation a_u := (default one (Request.a_u r)).
Local Abbreviation b_u := (default one (Request.b_u r)).
Local Abbreviation a_v := (default one (Request.a_v r)).
Local Abbreviation b_v := (default one (Request.b_v r)).

(** The body of the [while]: [u] is drawn first, then [v]. *)
Definition draw_pair (g : rng) : num * num * rng :=
  let '(u, g1) := beta_sample jStat (k_u + a_u) (n_u - k_u + b_u) g in
  let '(v, g2) := beta_sample jStat (k_v + a_v) (n_v - k_v + b_v) g1 in
  (u, v, g2).

(** [while (u >= v) { ... }]; [None] when the fuel runs out first. *)
Fixpoint rejection_loop (fuel : nat) (u v : num) (g : rng)
  : option (num * num * rng) :=
  if u >=? v then
    match fuel with
    | O => None
    | S fuel' =>
        let '(u', v', g') := draw_pair g in rejection_loop fuel' u' v' g'
    end
  else Some (u, v, g).

(** [let duv = (v-u)/(Bu - Bv)] with [Bu], [Bv] as the source has them. *)
Definition jacobian (u v : num) : num :=
  let Bu := ibeta jStat (one - u) (n - k + one) (k + one) in
  let Bv := ibeta jStat (one - v) (n - k + one) (k + one) in
  (v - u) / (Bu - Bv).

(** One iteration of the first [for] loop. *)
Definition sample_step (fuel : nat) (s : samples) (g : rng)
  : option (samples * rng) :=
  '(u, v, g') ← rejection_loop fuel zero zero g;
  Some (Samples (push (us s) u) (push (vs s) v)
                (push (duvs s) (jacobian u v)), g').

(** [for (let i=0; i<N; i++)], [count] iterations remaining. *)
Fixpoint sampling_loop (fuel count : nat) (s : samples) (g : rng)
  : option (samples * rng) :=
  match count with
  | O => Some (s, g)
  | S count' =>
      '(s', g') ← sample_step fuel s g;
      sampling_loop fuel count' s' g'
  end.

(** The first stage: [us], [vs], [duvs] start empty. *)
Definition validation_sampler (fuel : nat) (g : rng)
  : option (samples * rng) :=
  sampling_loop fuel N (Samples [] [] []) g.

(** The body of the inner loop. The compensated addition is written out
    as at lines 56-59: [y = f*duv - cp], [t = p_theta + y],
    [cp = (t - p_theta) - y], [p_theta = t]. *)
Definition inner_step (theta : num) (s : samples) (acc : num * num)
  (i : nat) : num * num :=
  let '(p_theta, cp) := acc in
  let u := array_get (us s) i in
  let v := array_get (vs s) i in
  let duv := array_get (duvs s) i in
  let p := u + theta * (v - u) in
  let f := beta_pdf jStat p (k + one) (n - k + one) in
  let y := f * duv - cp in
  let t := p_theta + y in
  let cp := (t - p_theta) - y in
  (t, cp).

(** [for (let i=0; i<N; i++)] over the samples, for one grid value. *)
Definition inner_loop (theta : num) (s : samples) : num :=
  fst (foldl (inner_step theta s) (zero, zero) (seq 0 N)).

(** The body of the outer loop, on the state [(pdf, total, ct)]. *)
Definition outer_step (s : samples) (st : list num * num * num) (j : nat)
  : list num * num * num :=
  let '(pdf, total, ct) := st in
  let theta := of_nat j / of_nat M in
  let p_theta := inner_loop theta s in
  let pdf := push pdf p_theta in
  let y := p_theta - ct in
  let t := total + y in
  let ct := (t - total) - y in
  (pdf, t, ct).

(** [for (let j=0; j<=M; j++)] over the grid. *)
Definition grid_loop (s : samples) : list num * num * num :=
  foldl (outer_step s) ([], zero, zero) (seq 0 (S M)).

(** [total /= pdf.length], then [pdf[j] /= total] for [j = 0..M]. *)
Definition normalize (pdf : list num) (total : num) : list num :=
  let total := total / of_nat (length pdf) in
  foldl (fun pdf j => array_set pdf j (array_get pdf j / total))
        pdf (seq 0 (S M)).

(** [posterior] on the request [r]. Every rejection loop may run [fuel]
    times; [None] says that one of them needed more. *)
Definition posterior (fuel : nat) (g : rng) : option (list num) :=
  '(s, _) ← validation_sampler fuel g;
  let '(pdf, total, _) := grid_loop s in
  Some (normalize pdf total).
End Body.
End Posterior.

Arguments samples : clear implicits.

(** ** The accumulator of the specification *)

(** Compensated summation as the design notes word it: an accumulator with a
    [value] and a [compensation], and an [add] that corrects the next
    addition by the rounding error of the previous one. *)
Section Accumulator.
Context {num : Type} `{JSNumber num}.
Local Open Scope js_scope.

Record accumulator : Type := Acc {
  value : num;
  compensation : num
}.

Definition acc_add (a : accumulator) (x : num) : accumulator :=
  let y := x - compensation a in
  let t := value a + y in
  Acc t ((t - value a) - y).

Definition acc_sum (xs : list num) : accumulator :=
  foldl acc_add (Acc zero zero) xs.

Definition compensated_sum (xs : list num) : num := value (acc_sum xs).

(** [sum(pdf)], added left to right without compensation. *)
Definition plain_sum (xs : list num) : num := foldl add zero xs.
End Accumulator.
Arguments accumulator : clear implicits.

(** ** The density of the specification *)

(** One sample as the specification has it: [u], [v] and [duv]. *)
Abbreviation ValidationSample num := (num * (num * num))%type.

Section Density.
Context {num : Type} `{JSNumber num} {rng : Type} (jStat : JStat num rng).
Variable r : Request.t num.
Local Open Scope js_scope.

Definition sample_list (s : samples num) : list (ValidationSample num) :=
  zip (us s) (zip (vs s) (duvs s)).

(** [BetaPdf(u + theta (v - u); k+1, n-k+1) * duv]. *)
Definition density_term (theta : num) (x : ValidationSample num) : num :=
  let '(u, (v, duv)) := x in
  beta_pdf jStat (u + theta * (v - u))
    (Request.k r + one) (Request.n r - Request.k r + one) * duv.

(** The grid value of index [j]. *)
Definition grid_value (j : nat) : num :=
  of_nat j / of_nat (default 1000 (Request.M r)).

(** The raw density at grid index [j]: the compensated sum of the terms
    of all samples, not divided by their number. *)
Definition raw_density (s : samples num) (j : nat) : num :=
  compensated_sum (density_term (grid_value j) <$> sample_list s).

(** The three arrays have one entry per sample. *)
Definition parallel (s : samples num) (count : nat) : Prop :=
  length (us s) = count ∧ length (vs s) = count ∧ length (duvs s) = count.
End Density.

(** ** The random source *)

(** What the rejection loops ask of a source, stated on the pairs it yields:
    [first_accept_at test m g] says that, from the state [g], the pair number
    [m] is the first one to pass [test]. *)
Section Source.
Context {num : Type} `{JSNumber num} {rng : Type} (jStat : JStat num rng).
Variable r : Request.t num.

Definition next_state (g : rng) : rng := (draw_pair jStat r g).2.

Definition passes (test : num → num → bool) (g : rng) : bool :=
  let '(u, v, _) := draw_pair jStat r g in test u v.

Fixpoint first_accept_at (test : num → num → bool) (m : nat) (g : rng)
  : bool :=
  match m with
  | O => passes test g
  | S m' => negb (passes test g) && first_accept_at test m' (next_state g)
  end.

Fixpoint after_draws (m : nat) (g : rng) : rng :=
  match m with
  | O => g
  | S m' => after_draws m' (next_state g)
  end.

(** The source yields an accepted pair for each of [count] samples, one
    after the other. *)
Inductive yields (test : num → num → bool) : nat → rng → Prop :=
| yields_none g : yields test 0 g
| yields_next count g m :
    first_accept_at test m g = true →
    yields test count (after_draws (S m) g) →
    yields test (S count) g.

(** The exit test of [while (u >= v)]. *)
Definition exit_test (u v : num) : bool := negb (geb u v).
End Source.

(** ** Binary64 predicates *)

Section Binary64Predicates.
Local Open Scope float_scope.

(** Not a finite number: [NaN], [Infinity] or [-Infinity]. *)
Definition non_finite (x : float) : bool :=
  PrimFloat.is_nan x || PrimFloat.is_infinity x.

(** A number of the unit interval; [NaN] is not. *)
Definition in_unit (x : float) : bool := (0 <=? x) && (x <=? 1).


End Binary64Predicates.

(** ** A concrete source and library, in binary64 *)

(** A deterministic source that repeats the four draws [0.5, 0.25, 0.25,
    0.75], its state being the number of draws made: every other pair is
    rejected. The library functions are those of a request with
    [n = k = 1]: [I_x(1,2) = x (2 - x)] and the density [2 x] of
    [Beta(2,1)]. *)
Module Cyclic.
Local Open Scope float_scope.

Definition draw (i : nat) : float :=
  match i mod 4 with
  | 0 => 0.5
  | 1 => 0.25
  | 2 => 0.25
  | _ => 0.75
  end.

Definition sample (a b : float) (g : nat) : float * nat := (draw g, S g).

Definition jStat : JStat float nat := {|
  beta_sample := sample;
  ibeta := λ x _ _, x * (2 - x);
  beta_pdf := λ x _ _, 2 * x
|}.

Definition request (N M : nat) : Request.t float :=
  Request.mk 1 1 100 5 100 95 (Some N) (Some M) None None None None.
End Cyclic.

(** ** Exact arithmetic: the request invariant and a concrete library *)

Section ExactPredicates.
Local Open Scope R_scope.

End ExactPredicates.

(** A source that alternates the draws [1/4] and [3/4], with the library
    functions of a request with [n = k = 0]: [I_x(1,1) = x] and the density
    [1] of [Beta(1,1)]. *)
Module Uniform.
Local Open Scope R_scope.

Definition draw (i : nat) : R := if Nat.even i then 1 / 4 else 3 / 4.

Definition sample (a b : R) (g : nat) : R * nat := (draw g, S g).

Definition jStat : JStat R nat := {|
  beta_sample := sample;
  ibeta := λ x _ _, x;
  beta_pdf := λ _ _ _, 1
|}.

Definition request (N M : nat) : Request.t R :=
  Request.mk 0 0 100 5 100 95 (Some N) (Some M) None None None None.
End Uniform.

(** The operations of the interface, read at the reals. *)
Ltac real_ops :=
  change (@add R real_number) with Rplus in *;
  change (@sub R real_number) with Rminus in *;
  change (@mul R real_number) with Rmult in *;
  change (@div R real_number) with Rdiv in *;
  change (@of_nat R real_number) with INR in *;
  change (@zero R real_number) with 0%R in *;
  change (@one R real_number) with 1%R in *.


(** ** Numbers: comparison, equality and truthiness *)

(** What the page script asks of numbers beyond the arithmetic of
    [posterior]: unary minus, [>], [<], [==] and the truth value a number
    has in [x || 0]. *)
Class JSCompare (num : Type) `{JSNumber num} : Type := {
  neg : num → num;
  gtb : num → num → bool;
  ltb : num → num → bool;
  loose_eq : num → num → bool;
  truthy : num → bool
}.

Notation "- x" := (neg x) : js_scope.
Infix ">?" := gtb (at level 70) : js_scope.
Infix "<?" := ltb (at level 70) : js_scope.
Infix "==?" := loose_eq (at level 70) : js_scope.

(** Binary64: [x > y] is [y < x]; the falsy numbers are the zeros and
    [NaN]. *)
#[export] Instance float_compare : JSCompare float := {
  neg := PrimFloat.opp;
  gtb := fun x y => PrimFloat.ltb y x;
  ltb := PrimFloat.ltb;
  loose_eq := PrimFloat.eqb;
  truthy := fun x => negb (PrimFloat.is_zero x || PrimFloat.is_nan x)
}.

#[export] Instance Rgt_decision (x y : R) : Decision (x > y)%R := Rgt_dec x y.
#[export] Instance Rlt_decision (x y : R) : Decision (x < y)%R := Rlt_dec x y.
#[export] Instance Req_decision (x y : R) : Decision (x = y) := Req_dec_T x y.

#[export] Instance real_compare : JSCompare R := {
  neg := Ropp;
  gtb := fun x y => bool_decide (x > y)%R;
  ltb := fun x y => bool_decide (x < y)%R;
  loose_eq := fun x y => bool_decide (x = y);
  truthy := fun x => negb (bool_decide (x = 0%R))
}.

(** ** The summary statistics of the page script *)

Module Summary.
Section Program.
Context {num : Type} `{JSCompare num}.
Local Open Scope js_scope.

(** [a[i-1]]: at [i = 0] this is [a[-1]], which is [undefined]. *)
Definition before (a : list num) (i : nat) : option num :=
match i with
| O => None
| S j => a !! j
end.

(** [(x || 0)] for [x] a number or [undefined]. *)
Definition or_zero (x : option num) : num :=
match x with
| Some x => if truthy x then x else zero
| None => zero
end.

(** [data.reduce(f, init)], the callback taking the accumulator, the
  element and its index. *)
Definition reduce {B : Type} (f : B → num → nat → B) (init : B)
  (data : list num) : B :=
foldl (λ acc ix, f acc ix.2 ix.1) init (zip (seq 0 (length data)) data).

(** [(a, x, i) => [...a, x/len + (a[i-1] || 0)]]. *)
Definition cumsum_step (len : num) (a : list num) (x : num) (i : nat)
: list num :=
a ++ [x / len + or_zero (before a i)].

(** [let cumsum = data.reduce(..., []); cumsum.unshift(0)]. *)
Definition cumsum (data : list num) : list num :=
let len := of_nat (length data) in
let cumsum := reduce (cumsum_step len) [] data in
zero :: cumsum.

(** The locals [lower], [upper], [median], [mode], [max]. *)
Record locals : Type := Locals {
lower : num;
upper : num;
median : num;
mode : num;
max : num
}.

(** The body of the [for] loop, lines 165-183. *)
Definition step (data cumsum : list num) (alpha : num) (st : locals)
  (i : nat) : locals :=
let lower :=
  if (lower st ==? - one) && (array_get cumsum i >? alpha / of_nat 2)
  then
    let lower := of_nat i in
    if decide (0 < i)
    then lower - (array_get cumsum i - alpha / of_nat 2)
                 / (array_get cumsum i - array_get cumsum (i - 1))
    else lower
  else lower st in
let upper :=
  if (upper st ==? - one)
     && (array_get cumsum i >? one - alpha / of_nat 2)
  then
    let upper := of_nat i in
    if decide (0 < i)
    then upper - (array_get cumsum i - (one - alpha / of_nat 2))
                 / (array_get cumsum i - array_get cumsum (i - 1))
    else upper
  else upper st in
let median :=
  if (median st ==? - one) && (array_get cumsum i >? one / of_nat 2)
  then
    let median := of_nat i in
    if decide (0 < i)
    then median - (array_get cumsum i - one / of_nat 2)
                  / (array_get cumsum i - array_get cumsum (i - 1))
    else median
  else median st in
(* [data[i] > max] is false when [data[i]] is [undefined] *)
match data !! i with
| Some x =>
    if x >? max st then Locals lower upper median (of_nat i) x
    else Locals lower upper median (mode st) (max st)
| None => Locals lower upper median (mode st) (max st)
end.

(** [summaryStats(data, alpha)]: returns [[lower, upper, median, mode]]. *)
Definition summaryStats (data : list num) (alpha : num) : list num :=
let cumsum := cumsum data in
let st := foldl (step data cumsum alpha)
            (Locals (- one) (- one) (- one) (- one) (- one))
            (seq 0 (length cumsum)) in
[lower st; upper st; median st; mode st].
End Program.
End Summary.

(** ** What the summary statistics are, in exact arithmetic *)

Section SummarySpec.
Local Open Scope R_scope.

(** The block the loop body of [summaryStats] repeats for [lower],
    [upper] and [median], with the threshold [tau] of each. *)
Definition threshold_block (c : list R) (tau : R) (x : R) (i : nat) : R :=
  if (loose_eq x (-1)) && (gtb (array_get c i) tau)
  then
    if decide (0 < i)%nat
    then INR i - (array_get c i - tau)
                 / (array_get c i - array_get c (i - 1))
    else INR i
  else x.

(** [found c tau x]: [x] is the place where the cumulative sums [c],
    joined by straight lines, first exceed [tau]: either already at
    index [0], or between the indices [j] and [j+1], at the point where
    the line through [(j, c_j)] and [(j+1, c_(j+1))] has the value
    [tau]. *)
Definition found (c : list R) (tau x : R) : Prop :=
  (x = 0 ∧ ∃ c0, c !! 0%nat = Some c0 ∧ tau < c0) ∨
  (∃ j cj cj', c !! j = Some cj ∧ c !! S j = Some cj' ∧
     Forall (λ ci, ci <= tau) (take (S j) c) ∧ tau < cj' ∧
     INR j <= x < INR (S j) ∧ cj + (x - INR j) * (cj' - cj) = tau).

(** [-1] when no cumulative sum exceeds [tau]. *)
Definition crossing (c : list R) (tau x : R) : Prop :=
  (x = -1 ∧ Forall (λ ci, ci <= tau) c) ∨ found c tau x.

(** [-1] when no entry exceeds [-1]; otherwise the index of the first
    entry that is the largest. *)
Definition first_maximum (data : list R) (mode : R) : Prop :=
  (mode = -1 ∧ Forall (λ y, y <= -1) data) ∨
  (∃ i x, mode = INR i ∧ data !! i = Some x ∧ -1 < x ∧
     Forall (λ y, y <= x) data ∧ Forall (λ y, y < x) (take i data)).
End SummarySpec.

(** ** Binary64: special values, and a source of nearly equal draws *)

(** [NaN] or an infinity, on the specification side of binary64. *)
Definition sf_special (x : spec_float) : Prop :=
  match x with
  | S754_nan | S754_infinity _ => True
  | _ => False
  end.

(** A source whose pairs [(2^-70, 2^-69)] are accepted at once but are so
    close to [0] that [1 - u] and [1 - v] both round to [1]; the library
    functions are those of [Cyclic]. *)
Module Degenerate.
Local Open Scope float_scope.

Definition draw (i : nat) : float :=
  if Nat.even i then 0x1p-70 else 0x1p-69.

Definition jStat : JStat float nat := {|
  beta_sample := λ _ _ g, (draw g, S g);
  ibeta := ibeta Cyclic.jStat;
  beta_pdf := beta_pdf Cyclic.jStat
|}.
End Degenerate.

(** ** The trimming step of [updateChart] *)

(** Lines 264-271 and 277-283 of the page script: the threshold, the two
    loops that move [begin] and [end] inwards, the slice that is drawn and
    the labels of its points. [Math.max] and [toFixed] are built in and are
    parameters. *)
Module Chart.
Section Trim.
Context {num : Type} `{JSCompare num} {str : Type}.
Variable math_max : list num → num.
Variable toFixed : num → nat → str.
Local Open Scope js_scope.

(** The number of a counter that can be [-1], as [end] is on an empty
  array. *)
Definition of_int (z : Z) : num :=
match z with
| Z0 => of_nat 0
| Zpos p => of_nat (Pos.to_nat p)
| Zneg p => - of_nat (Pos.to_nat p)
end.

Variables (data : list num) (lower upper weight : num).

(** [let thresh = max / 1000] with [max = Math.max(...data)]. *)
Definition thresh : num := math_max data / of_nat 1000.

(** [while (begin < len && begin < lower && data[begin] < thresh)
  ++begin]. *)
Definition front_guard (begin : nat) : bool :=
bool_decide (begin < length data) && (of_nat begin <? lower)
&& (array_get data begin <? thresh).

Fixpoint advance (fuel begin : nat) : nat :=
if front_guard begin then
  match fuel with
  | O => begin
  | S fuel' => advance fuel' (S begin)
  end
else begin.

(** [begin] starts at [0]; the loop runs at most [len] times. *)
Definition begin : nat := advance (length data) 0.

(** [while (end > begin && end > upper && data[end] < thresh) --end]. *)
Definition back_guard (end_ : Z) : bool :=
bool_decide (Z.of_nat begin < end_)%Z && (of_int end_ >? upper)
&& (array_get data (Z.to_nat end_) <? thresh).

Fixpoint retreat (fuel : nat) (end_ : Z) : Z :=
if back_guard end_ then
  match fuel with
  | O => end_
  | S fuel' => retreat fuel' (end_ - 1)
  end
else end_.

(** [end] starts at [len - 1]. *)
Definition end_ : Z := retreat (length data) (Z.of_nat (length data) - 1).

(** What the first loop requires of an index it steps over, and the
  second loop of an index it steps back from. *)
Definition cut_in_front (j : nat) : Prop :=
(of_nat j <? lower) = true ∧ (array_get data j <? thresh) = true.

Definition cut_at_back (j : Z) : Prop :=
(of_int j >? upper) = true
∧ (array_get data (Z.to_nat j) <? thresh) = true.

(** [a.slice(start, stop)] for indices that are not negative. *)
Definition slice (a : list num) (start stop : nat) : list num :=
take (stop - start) (drop start a).

(** [data = data.slice(begin, end+1)]. *)
Definition trimmed : list num := slice data begin (Z.to_nat (end_ + 1)).

(** The label of the point [i]: [100 * i * weight / len], at most [100],
  with one decimal. *)
Definition label (i : nat) : str :=
let x := of_nat 100 * of_nat i * weight / of_nat (length data) in
let x := if x >? of_nat 100 then of_nat 100 else x in
toFixed x 1.

(** [for (let i=begin; i<=end; i++) labels.push(...)]. *)
Definition labels : list str :=
label <$> seq begin (Z.to_nat (end_ + 1 - Z.of_nat begin)).
End Trim.
End Chart.

(** A concrete [Math.max] on binary64 arrays without [NaN], and an array
    with negligible entries at both ends. *)
Module ChartExample.
Local Open Scope float_scope.

Definition math_max (l : list float) : float :=
  foldl (λ a x, if a <? x then x else a) neg_infinity l.

Definition data : list float := [0.0001; 0.5; 3; 0.002; 0.0005; 0.0001].
End ChartExample.
(** ** Facts about the loops, for every number instance *)

Section LoopFacts.
Context {num : Type} `{JSNumber num} {rng : Type} (jStat : JStat num rng).
Variable r : Request.t num.
Local Open Scope js_scope.

Local Abbreviation N := (default 1000 (Request.N r)).
Local Abbreviation M := (default 1000 (Request.M r)).

Lemma sample_list_length (s : samples num) count :
  parallel s count → length (sample_list s) = count.
Proof.
  intros (Hu & Hv & Hd). unfold sample_list.
  rewrite !length_zip_with. lia.
Qed.

Lemma sample_list_lookup (s : samples num) count i :
  parallel s count → i < count →
  ∃ u v duv, us s !! i = Some u ∧ vs s !! i = Some v ∧
    duvs s !! i = Some duv ∧ sample_list s !! i = Some (u, (v, duv)).
Proof.
  intros (Hu & Hv & Hd) Hi.
  destruct (lookup_lt_is_Some_2 (us s) i) as [u Eu]; [lia|].
  destruct (lookup_lt_is_Some_2 (vs s) i) as [v Ev]; [lia|].
  destruct (lookup_lt_is_Some_2 (duvs s) i) as [d Ed]; [lia|].
  exists u, v, d. repeat split; try done.
  unfold sample_list. apply lookup_zip_with_Some.
  exists u, (v, d). repeat split; try done.
  apply lookup_zip_with_Some. by exists v, d.
Qed.

(** The inner loop, run over the first [m] samples, is the accumulator
    fed with their terms. *)
Lemma inner_loop_prefix theta (s : samples num) m :
  parallel s N → m ≤ N →
  foldl (inner_step jStat r theta s) (zero, zero) (seq 0 m)
  = (let a := acc_sum (density_term jStat r theta <$> take m (sample_list s))
     in (value a, compensation a)).
Proof.
  intros Hp. induction m as [|m IH]; intros Hm; [done|].
  rewrite seq_S, foldl_snoc, IH by lia. simpl.
  destruct (sample_list_lookup s N m Hp) as (u & v & d & Eu & Ev & Ed & E);
    [lia|].
  rewrite (take_S_r _ _ _ E), fmap_snoc.
  unfold acc_sum. rewrite foldl_snoc.
  unfold array_get. rewrite Eu, Ev, Ed. done.
Qed.

Lemma inner_loop_spec theta (s : samples num) :
  parallel s N →
  inner_loop jStat r theta s
  = compensated_sum (density_term jStat r theta <$> sample_list s).
Proof.
  intros Hp. unfold inner_loop.
  rewrite (inner_loop_prefix theta s N Hp) by lia. simpl.
  rewrite take_ge; [done|]. rewrite (sample_list_length s N Hp). lia.
Qed.

(** The outer loop after [m] grid values. *)
Lemma grid_loop_prefix (s : samples num) m :
  foldl (outer_step jStat r s) ([], zero, zero) (seq 0 m)
  = (let pdf := (λ j, inner_loop jStat r (grid_value r j) s) <$> seq 0 m in
     (pdf, value (acc_sum pdf), compensation (acc_sum pdf))).
Proof.
  induction m as [|m IH]; [done|].
  rewrite seq_S, foldl_snoc, IH. simpl.
  rewrite fmap_snoc. unfold acc_sum. rewrite foldl_snoc. done.
Qed.

Lemma grid_loop_spec (s : samples num) :
  parallel s N →
  grid_loop jStat r s
  = (let pdf := raw_density jStat r s <$> seq 0 (S M) in
     (pdf, compensated_sum pdf, compensation (acc_sum pdf))).
Proof.
  intros Hp. unfold grid_loop. rewrite grid_loop_prefix.
  cbv zeta. unfold compensated_sum at 1.
  replace ((λ j, inner_loop jStat r (grid_value r j) s) <$> seq 0 (S M))
    with (raw_density jStat r s <$> seq 0 (S M)); [done|].
  apply list_fmap_ext. intros i j _. unfold raw_density.
  by rewrite inner_loop_spec.
Qed.

Lemma grid_loop_length (s : samples num) pdf total ct :
  grid_loop jStat r s = (pdf, total, ct) → length pdf = S M.
Proof.
  unfold grid_loop. rewrite grid_loop_prefix. cbv zeta.
  intros E. apply (f_equal (λ st, length st.1.1)) in E. simpl in E.
  rewrite <- E. simpl. by rewrite length_fmap, length_seq.
Qed.

(** The in-place division, after the first [m] entries. *)
Lemma normalize_prefix (q : num) pdf m :
  m ≤ length pdf →
  foldl (λ pdf j, array_set pdf j (array_get pdf j / q)) pdf (seq 0 m)
  = ((λ x, x / q) <$> take m pdf) ++ drop m pdf.
Proof.
  induction m as [|m IH]; intros Hm; [by rewrite drop_0|].
  rewrite seq_S, foldl_snoc, IH by lia. simpl.
  destruct (lookup_lt_is_Some_2 pdf m) as [x Ex]; [lia|].
  rewrite (drop_S _ _ _ Ex), (take_S_r _ _ _ Ex), fmap_snoc.
  assert (Hlen : length ((λ x, x / q) <$> take m pdf) = m)
    by (rewrite length_fmap, length_take; lia).
  unfold array_set, array_get.
  rewrite decide_True by (rewrite length_app; simpl; lia).
  rewrite lookup_app_r by lia. rewrite Hlen, Nat.sub_diag. simpl.
  rewrite insert_app_r_alt by lia. rewrite Hlen, Nat.sub_diag. simpl.
  by rewrite <- app_assoc.
Qed.

Lemma normalize_spec pdf total :
  length pdf = S M →
  normalize r pdf total = (λ x, x / (total / of_nat (S M))) <$> pdf.
Proof.
  intros Hlen. unfold normalize. rewrite Hlen.
  rewrite normalize_prefix by lia.
  rewrite <- Hlen, take_ge, drop_ge by lia. by rewrite app_nil_r.
Qed.
End LoopFacts.

(** ** Facts about the sampling stage, for every number instance *)

Section SamplerFacts.
Context {num : Type} `{JSNumber num} {rng : Type} (jStat : JStat num rng).
Variable r : Request.t num.
Local Open Scope js_scope.

Local Abbreviation N := (default 1000 (Request.N r)).
Local Abbreviation M := (default 1000 (Request.M r)).

Lemma rejection_loop_unfold fuel u v g :
  rejection_loop jStat r fuel u v g
  = if u >=? v then
      match fuel with
      | O => None
      | S fuel' =>
          let '(u', v', g') := draw_pair jStat r g in
          rejection_loop jStat r fuel' u' v' g'
      end
    else Some (u, v, g).
Proof. by destruct fuel. Qed.

(** More fuel does not change a result. *)
Lemma rejection_loop_mono fuel fuel' u v g res :
  fuel ≤ fuel' →
  rejection_loop jStat r fuel u v g = Some res →
  rejection_loop jStat r fuel' u v g = Some res.
Proof.
  revert fuel' u v g. induction fuel as [|fuel IH]; intros fuel' u v g Hle;
    rewrite !(rejection_loop_unfold _ u v g); destruct (u >=? v); try done.
  destruct fuel' as [|fuel']; [lia|].
  destruct (draw_pair jStat r g) as [[u1 v1] g1]. apply IH. lia.
Qed.

Lemma sample_step_mono fuel fuel' s g res :
  fuel ≤ fuel' →
  sample_step jStat r fuel s g = Some res →
  sample_step jStat r fuel' s g = Some res.
Proof.
  intros Hle. unfold sample_step. intros E.
  apply bind_Some in E as ([[u v] g'] & E1 & E2).
  by rewrite (rejection_loop_mono _ _ _ _ _ _ Hle E1).
Qed.

Lemma sampling_loop_mono fuel fuel' count s g res :
  fuel ≤ fuel' →
  sampling_loop jStat r fuel count s g = Some res →
  sampling_loop jStat r fuel' count s g = Some res.
Proof.
  intros Hle. revert s g. induction count as [|count IH]; intros s g;
    [done|]. simpl. intros E.
  apply bind_Some in E as ([s1 g1] & E1 & E2).
  rewrite (sample_step_mono _ _ _ _ _ Hle E1). simpl. by apply IH.
Qed.

(** A loop entered on a rejected pair returns a pair that was drawn and
    that fails the guard; it is the first such pair of the source. *)
Lemma rejection_loop_sound fuel u v g u' v' g' :
  (u >=? v) = true →
  rejection_loop jStat r fuel u v g = Some (u', v', g') →
  (u' >=? v') = false ∧
  ∃ m, m < fuel ∧ first_accept_at jStat r exit_test m g = true ∧
       draw_pair jStat r (after_draws jStat r m g) = (u', v', g').
Proof.
  revert u v g. induction fuel as [|fuel IH]; intros u v g Hge;
    rewrite rejection_loop_unfold, Hge; [done|].
  destruct (draw_pair jStat r g) as [[u1 v1] g1] eqn:Ed.
  destruct (u1 >=? v1) eqn:Hge1.
  - intros E. destruct (IH _ _ _ Hge1 E) as (Hex & m & Hm & Hf & Hd).
    split; [done|]. exists (S m). split; [lia|]. simpl.
    unfold passes, next_state, exit_test. rewrite Ed, Hge1. simpl.
    split; [done|]. done.
  - rewrite rejection_loop_unfold, Hge1.
    intros [= <- <- <-]. split; [done|]. exists 0. split; [lia|]. simpl.
    unfold passes, exit_test. by rewrite Ed, Hge1.
Qed.

Lemma rejection_loop_complete m u v g :
  (u >=? v) = true →
  first_accept_at jStat r exit_test m g = true →
  rejection_loop jStat r (S m) u v g
  = Some (draw_pair jStat r (after_draws jStat r m g)).
Proof.
  revert u v g. induction m as [|m IH]; intros u v g Hge Hf;
    rewrite rejection_loop_unfold, Hge;
    cbn [first_accept_at after_draws] in Hf |- *;
    unfold passes, next_state in *;
    destruct (draw_pair jStat r g) as [[u1 v1] g1] eqn:Ed; cbn [snd] in *.
  - unfold exit_test in Hf. apply negb_true_iff in Hf.
    by rewrite rejection_loop_unfold, Hf.
  - apply andb_true_iff in Hf as [Hx Hf]. unfold exit_test in Hx.
    rewrite negb_involutive in Hx. by apply IH.
Qed.

Lemma after_draws_next m g :
  next_state jStat r (after_draws jStat r m g)
  = after_draws jStat r (S m) g.
Proof. revert g. induction m as [|m IH]; intros g; [done|]. apply IH. Qed.

(** The three arrays grow together, one entry per sample. *)
Lemma sampling_loop_parallel fuel count (s : samples num) g s' g' c :
  parallel s c →
  sampling_loop jStat r fuel count s g = Some (s', g') →
  parallel s' (c + count).
Proof.
  revert s g c. induction count as [|count IH]; intros s g c Hp.
  - intros [= <- <-]. by rewrite Nat.add_0_r.
  - simpl. intros E. apply bind_Some in E as ([s1 g1] & E1 & E2).
    replace (c + S count)%nat with (S c + count)%nat by lia.
    apply (IH s1 g1); [|done].
    unfold sample_step in E1.
    apply bind_Some in E1 as ([[u v] g2] & _ & [= <- <-]).
    destruct Hp as (Hu & Hv & Hd).
    repeat split; unfold push; simpl; rewrite length_app; simpl; lia.
Qed.

Lemma validation_sampler_parallel fuel g s g' :
  validation_sampler jStat r fuel g = Some (s, g') → parallel s N.
Proof. by apply (sampling_loop_parallel fuel N (Samples [] [] []) g s g' 0). Qed.

Section Entered.
(** [let u=0, v=0]: the guard [0 >= 0] holds, so every sample is drawn. *)
Hypothesis enters : (zero >=? zero) = true.

(** One sample: the arrays grow by the pair the loop returned. *)
Lemma sample_step_spec fuel (s : samples num) g s' g' count :
  parallel s count →
  sample_step jStat r fuel s g = Some (s', g') →
  ∃ u v m,
    m < fuel ∧ first_accept_at jStat r exit_test m g = true ∧
    draw_pair jStat r (after_draws jStat r m g) = (u, v, g') ∧
    (u >=? v) = false ∧
    parallel s' (S count) ∧
    sample_list s' = sample_list s ++ [(u, (v, jacobian jStat r u v))].
Proof.
  intros (Hu & Hv & Hd). unfold sample_step. intros E.
  apply bind_Some in E as ([[u v] g1] & E1 & [= <- <-]).
  destruct (rejection_loop_sound _ _ _ _ _ _ _ enters E1)
    as (Hex & m & Hm & Hf & Hdraw).
  exists u, v, m. repeat split; try done; unfold push; simpl;
    rewrite ?length_app; simpl; try lia.
  unfold sample_list. simpl. unfold push.
  rewrite !zip_with_app by (rewrite ?length_zip_with; lia). done.
Qed.

(** The sampling loop keeps the arrays parallel and every property of
    the retained samples that holds of each accepted draw. *)
Lemma sampling_loop_spec (P : ValidationSample num → Prop) fuel count :
  (∀ g0 u v g1, draw_pair jStat r g0 = (u, v, g1) → (u >=? v) = false →
                P (u, (v, jacobian jStat r u v))) →
  ∀ (s : samples num) g s' g' c,
    parallel s c → Forall P (sample_list s) →
    sampling_loop jStat r fuel count s g = Some (s', g') →
    parallel s' (c + count) ∧ Forall P (sample_list s').
Proof.
  intros HP. induction count as [|count IH]; intros s g s' g' c Hp Hall.
  - intros [= <- <-]. by rewrite Nat.add_0_r.
  - simpl. intros E. apply bind_Some in E as ([s1 g1] & E1 & E2).
    destruct (sample_step_spec _ _ _ _ _ _ Hp E1)
      as (u & v & m & _ & _ & Hd & Hex & Hp1 & Hl1).
    replace (c + S count)%nat with (S c + count)%nat by lia.
    apply (IH s1 g1 s' g' (S c) Hp1); [|done].
    rewrite Hl1. apply Forall_app. split; [done|].
    apply Forall_singleton. by eapply HP.
Qed.

Lemma validation_sampler_spec (P : ValidationSample num → Prop) fuel g s g' :
  (∀ g0 u v g1, draw_pair jStat r g0 = (u, v, g1) → (u >=? v) = false →
                P (u, (v, jacobian jStat r u v))) →
  validation_sampler jStat r fuel g = Some (s, g') →
  parallel s N ∧ Forall P (sample_list s).
Proof.
  intros HP E.
  apply (sampling_loop_spec P fuel N HP (Samples [] [] []) g s g' 0);
    [done| by constructor | done].
Qed.

(** The sampling loop returns exactly when the source yields. *)
Lemma sampling_loop_yields fuel count (s : samples num) g res :
  parallel s (length (us s)) →
  sampling_loop jStat r fuel count s g = Some res →
  yields jStat r exit_test count g.
Proof.
  revert s g. induction count as [|count IH]; intros s g Hp;
    [constructor|].
  simpl. intros E. apply bind_Some in E as ([s1 g1] & E1 & E2).
  destruct (sample_step_spec _ _ _ _ _ _ Hp E1)
    as (u & v & m & _ & Hf & Hd & _ & Hp1 & _).
  apply (yields_next _ _ _ _ _ m Hf).
  rewrite <- after_draws_next. unfold next_state at 1. rewrite Hd. simpl.
  apply (IH s1 g1); [|done].
  destruct Hp1 as (Hu & Hv & Hdu). repeat split; congruence.
Qed.

Lemma yields_sampling_loop count g :
  yields jStat r exit_test count g →
  ∃ fuel, ∀ s : samples num,
    ∃ res, sampling_loop jStat r fuel count s g = Some res.
Proof.
  induction 1 as [g|count g m Hf _ (fuel & IH)].
  - exists 0. intros s. by eexists.
  - exists (S m `max` fuel). intros s. simpl.
    pose proof (rejection_loop_complete m _ _ g enters Hf) as E.
    destruct (draw_pair jStat r (after_draws jStat r m g))
      as [[u v] g1] eqn:Ed.
    assert (g1 = after_draws jStat r (S m) g) as ->.
    { rewrite <- after_draws_next. unfold next_state. by rewrite Ed. }
    unfold sample_step.
    assert (Hle : S m ≤ S m `max` fuel) by lia.
    rewrite (rejection_loop_mono _ _ _ _ _ _ Hle E). simpl.
    destruct (IH (Samples (push (us s) u) (push (vs s) v)
                (push (duvs s) (jacobian jStat r u v)))) as [res Eres].
    exists res. eapply sampling_loop_mono; [|done]. lia.
Qed.
End Entered.

(** Past the sampling stage nothing can fail to return. *)
Lemma posterior_unfold fuel g :
  posterior jStat r fuel g
  = '(s, _) ← validation_sampler jStat r fuel g;
    Some (normalize r (grid_loop jStat r s).1.1 (grid_loop jStat r s).1.2).
Proof.
  unfold posterior. destruct (validation_sampler jStat r fuel g)
    as [[s g']|]; [|done].
  simpl. by destruct (grid_loop jStat r s) as [[pdf total] ct].
Qed.


Lemma posterior_returns fuel g s g' :
  validation_sampler jStat r fuel g = Some (s, g') →
  (grid_loop jStat r s).1.1 = raw_density jStat r s <$> seq 0 (S M) ∧
  (grid_loop jStat r s).1.2
    = compensated_sum (raw_density jStat r s <$> seq 0 (S M)) ∧
  posterior jStat r fuel g
  = Some ((λ x, x / ((grid_loop jStat r s).1.2 / of_nat (S M)))
            <$> (grid_loop jStat r s).1.1).
Proof.
  intros E. pose proof (validation_sampler_parallel _ _ _ _ E) as Hp.
  rewrite posterior_unfold, E. cbn [mbind option_bind].
  rewrite (grid_loop_spec jStat r s Hp). cbv zeta. cbn [fst snd].
  repeat split. rewrite normalize_spec; [done|].
  by rewrite length_fmap, length_seq.
Qed.

Lemma posterior_returns_iff g :
  (zero >=? zero) = true →
  (∃ fuel pdf, posterior jStat r fuel g = Some pdf)
  ↔ yields jStat r exit_test N g.
Proof.
  intros enters. split.
  - intros (fuel & pdf & E). rewrite posterior_unfold in E.
    apply bind_Some in E as ([s g'] & E & _).
    by apply (sampling_loop_yields enters fuel N (Samples [] [] []) g (s, g')).
  - intros Hy. destruct (yields_sampling_loop enters _ _ Hy) as (fuel & Hs).
    destruct (Hs (Samples [] [] [])) as ([s g'] & E).
    exists fuel. eexists. rewrite posterior_unfold.
    unfold validation_sampler. rewrite E. done.
Qed.

(** The acceptance test matters only on the pairs the source yields. *)
Lemma first_accept_at_ext test1 test2 m g :
  (∀ g0, passes jStat r test1 g0 = passes jStat r test2 g0) →
  first_accept_at jStat r test1 m g = first_accept_at jStat r test2 m g.
Proof.
  intros Hext. revert g. induction m as [|m IH]; intros g; simpl;
    rewrite Hext; [done|]. by rewrite IH.
Qed.

Lemma yields_ext test1 test2 count g :
  (∀ g0, passes jStat r test1 g0 = passes jStat r test2 g0) →
  yields jStat r test1 count g → yields jStat r test2 count g.
Proof.
  intros Hext. induction 1 as [g|count g m Hf _ IH]; [constructor|].
  apply (yields_next _ _ _ _ _ m); [|done].
  by rewrite <- (first_accept_at_ext test1 test2).
Qed.
End SamplerFacts.

(** ** Two runs on sources that yield the same draws *)

Section Simulation.
Context {num : Type} `{JSNumber num} {rng : Type} (jStat : JStat num rng).
Variable r : Request.t num.
Local Open Scope js_scope.

(** [same_draws] relates states of the source from which every draw, for
    all parameters, is the same number, now and ever after. *)
Variable same_draws : rng → rng → Prop.
Hypothesis same_draws_step : ∀ a b g1 g2,
  same_draws g1 g2 →
  (beta_sample jStat a b g1).1 = (beta_sample jStat a b g2).1 ∧
  same_draws (beta_sample jStat a b g1).2 (beta_sample jStat a b g2).2.

Lemma draw_pair_sim g1 g2 :
  same_draws g1 g2 →
  (draw_pair jStat r g1).1 = (draw_pair jStat r g2).1 ∧
  same_draws (draw_pair jStat r g1).2 (draw_pair jStat r g2).2.
Proof.
  intros Hg. unfold draw_pair.
  destruct (same_draws_step (Request.k_u r + default one (Request.a_u r))
    (Request.n_u r - Request.k_u r + default one (Request.b_u r))
    g1 g2 Hg) as [Eu Hg1].
  destruct (beta_sample jStat _ _ g1) as [u1 g1'],
           (beta_sample jStat _ _ g2) as [u2 g2']. simpl in *. subst u2.
  destruct (same_draws_step (Request.k_v r + default one (Request.a_v r))
    (Request.n_v r - Request.k_v r + default one (Request.b_v r))
    g1' g2' Hg1) as [Ev Hg2].
  destruct (beta_sample jStat _ _ g1') as [v1 g1''],
           (beta_sample jStat _ _ g2') as [v2 g2'']. simpl in *. by subst v2.
Qed.

Lemma rejection_loop_sim fuel1 fuel2 u v g1 g2 u1 v1 g1' u2 v2 g2' :
  same_draws g1 g2 →
  rejection_loop jStat r fuel1 u v g1 = Some (u1, v1, g1') →
  rejection_loop jStat r fuel2 u v g2 = Some (u2, v2, g2') →
  u1 = u2 ∧ v1 = v2 ∧ same_draws g1' g2'.
Proof.
  revert fuel2 u v g1 g2.
  induction fuel1 as [|fuel1 IH]; intros fuel2 u v g1 g2 Hg;
    rewrite !(rejection_loop_unfold _ _ _ u v); destruct (u >=? v);
    try done; try (by intros [= <- <- <-] [= <- <- <-]).
  destruct fuel2 as [|fuel2]; [done|].
  destruct (draw_pair_sim g1 g2 Hg) as [E Hg'].
  destruct (draw_pair jStat r g1) as [[ua va] ga],
           (draw_pair jStat r g2) as [[ub vb] gb]. simpl in *.
  injection E as <- <-. by apply IH.
Qed.

Lemma sampling_loop_sim fuel1 fuel2 count (s : samples num) g1 g2 s1 g1' s2 g2' :
  same_draws g1 g2 →
  sampling_loop jStat r fuel1 count s g1 = Some (s1, g1') →
  sampling_loop jStat r fuel2 count s g2 = Some (s2, g2') →
  s1 = s2 ∧ same_draws g1' g2'.
Proof.
  revert s g1 g2. induction count as [|count IH]; intros s g1 g2 Hg.
  - by intros [= <- <-] [= <- <-].
  - simpl. intros E1 E2.
    apply bind_Some in E1 as ([sa ga] & Ea & E1).
    apply bind_Some in E2 as ([sb gb] & Eb & E2).
    unfold sample_step in Ea, Eb.
    apply bind_Some in Ea as ([[ua va] ga'] & Ea & [= <- <-]).
    apply bind_Some in Eb as ([[ub vb] gb'] & Eb & [= <- <-]).
    destruct (rejection_loop_sim _ _ _ _ _ _ _ _ _ _ _ _ Hg Ea Eb)
      as (<- & <- & Hg').
    by apply (IH _ _ _ Hg' E1 E2).
Qed.

Lemma posterior_sim fuel1 fuel2 g1 g2 pdf1 pdf2 :
  same_draws g1 g2 →
  posterior jStat r fuel1 g1 = Some pdf1 →
  posterior jStat r fuel2 g2 = Some pdf2 →
  pdf1 = pdf2.
Proof.
  intros Hg. rewrite !posterior_unfold. intros E1 E2.
  apply bind_Some in E1 as ([s1 g1'] & E1 & [= <-]).
  apply bind_Some in E2 as ([s2 g2'] & E2 & [= <-]).
  by destruct (sampling_loop_sim _ _ _ _ _ _ _ _ _ _ Hg E1 E2) as [<- _].
Qed.
End Simulation.

(** ** Binary64 facts *)

(** The special values of IEEE 754 arithmetic that [posterior] can meet,
    derived from the specification of the primitive operations. *)
Section Binary64.
Local Open Scope float_scope.

Lemma Prim2SF_nan_inv x : Prim2SF x = S754_nan → x = nan.
Proof. intros E. by rewrite <- (SF2Prim_Prim2SF x), E. Qed.

Lemma Prim2SF_infinity_inv x s :
  Prim2SF x = S754_infinity s → x = if s then neg_infinity else infinity.
Proof. intros E. rewrite <- (SF2Prim_Prim2SF x), E. by destruct s. Qed.

Lemma non_finite_spec x :
  match Prim2SF x with
  | S754_nan | S754_infinity _ => True
  | _ => False
  end → non_finite x = true.
Proof.
  destruct (Prim2SF x) as [| s | |] eqn:E; try done; intros _.
  - apply Prim2SF_infinity_inv in E as ->. by destruct s.
  - by apply Prim2SF_nan_inv in E as ->.
Qed.

Lemma add_nan_l x : nan + x = nan.
Proof. apply Prim2SF_inj. by rewrite FloatAxioms.add_spec. Qed.



Lemma sub_nan_r x : x - nan = nan.
Proof.
  apply Prim2SF_inj. rewrite FloatAxioms.sub_spec.
  change (Prim2SF nan) with S754_nan. by destruct (Prim2SF x).
Qed.


Lemma mul_nan_r x : x * nan = nan.
Proof.
  apply Prim2SF_inj. rewrite FloatAxioms.mul_spec.
  change (Prim2SF nan) with S754_nan. by destruct (Prim2SF x).
Qed.

Lemma div_nan_l x : nan / x = nan.
Proof. apply Prim2SF_inj. by rewrite FloatAxioms.div_spec. Qed.

Lemma div_nan_r x : x / nan = nan.
Proof.
  apply Prim2SF_inj. rewrite FloatAxioms.div_spec.
  change (Prim2SF nan) with S754_nan. by destruct (Prim2SF x).
Qed.

(** [x == 0] holds of the two zeros only. *)
Lemma is_zero_spec x :
  PrimFloat.is_zero x = true → ∃ s, Prim2SF x = S754_zero s.
Proof.
  unfold PrimFloat.is_zero. rewrite FloatAxioms.eqb_spec.
  change (Prim2SF PrimFloat.zero) with (S754_zero false).
  destruct (Prim2SF x) as [s|s| |s m e]; try done; [by exists s| |];
    by destruct s.
Qed.

(** A zero divided by anything is a zero or [NaN]. *)
Lemma zero_div x y s :
  Prim2SF x = S754_zero s →
  (∃ s', Prim2SF (x / y) = S754_zero s') ∨ x / y = nan.
Proof.
  intros E. destruct (Prim2SF (x / y)) eqn:Eq; rewrite FloatAxioms.div_spec, E in Eq.
  - left. by eexists.
  - by destruct (Prim2SF y).
  - right. apply Prim2SF_nan_inv. by rewrite FloatAxioms.div_spec, E.
  - by destruct (Prim2SF y).
Qed.

(** Dividing by a zero never gives a finite number. *)
Lemma div_zero_non_finite x d s :
  Prim2SF d = S754_zero s → non_finite (x / d) = true.
Proof.
  intros E. apply non_finite_spec. rewrite FloatAxioms.div_spec, E.
  by destruct (Prim2SF x).
Qed.

(** The comparisons of numbers are total: with no [NaN] involved,
    [!(u >= v)] is [u < v]. *)
Lemma SFcompare_antisym x y : SFcompare y x = CompOpp <$> SFcompare x y.
Proof.
  destruct x as [sx|sx| |sx mx ex], y as [sy|sy| |sy my ey]; simpl;
    try done; try (by destruct sx); try (by destruct sy);
    try (by destruct sx, sy).
  rewrite (Z.compare_antisym ex ey), !Pos.compare_cont_spec. simpl.
  rewrite (Pos.compare_antisym mx my).
  destruct sx, sy; try done;
    destruct (ex ?= ey)%Z; simpl; try done;
    destruct (mx ?= my)%positive; simpl; done.
Qed.

Lemma leb_number x y : (x <=? y) = true → x ≠ nan ∧ y ≠ nan.
Proof.
  rewrite FloatAxioms.leb_spec. intros E. split; intros ->;
    change (Prim2SF nan) with S754_nan in E; [done|].
  by destruct (Prim2SF x).
Qed.

Lemma in_unit_number x : in_unit x = true → x ≠ nan.
Proof.
  unfold in_unit. intros E. apply andb_true_iff in E as [E _].
  by apply leb_number in E as [_ E].
Qed.

Lemma exit_lt u v :
  u ≠ nan → v ≠ nan → (v <=? u) = false → (u <? v) = true.
Proof.
  intros Hu Hv. rewrite FloatAxioms.leb_spec, FloatAxioms.ltb_spec.
  unfold SFleb, SFltb. rewrite (SFcompare_antisym (Prim2SF v) (Prim2SF u)).
  destruct (SFcompare (Prim2SF v) (Prim2SF u)) as [[]|] eqn:E; try done.
  destruct (Prim2SF v) eqn:Ev, (Prim2SF u) eqn:Eu; try done;
    try (by apply Prim2SF_nan_inv in Ev); by apply Prim2SF_nan_inv in Eu.
Qed.

Lemma lt_exit u v : (u <? v) = true → (v <=? u) = false.
Proof.
  rewrite FloatAxioms.leb_spec, FloatAxioms.ltb_spec.
  unfold SFleb, SFltb. rewrite (SFcompare_antisym (Prim2SF v) (Prim2SF u)).
  by destruct (SFcompare (Prim2SF v) (Prim2SF u)) as [[]|].
Qed.
End Binary64.

(** ** The binary64 program *)

Section Binary64Program.
Context {rng : Type} (jStat : JStat float rng).
Variable r : Request.t float.
Local Open Scope float_scope.

Local Abbreviation N := (default 1000%nat (Request.N r)).
Local Abbreviation M := (default 1000%nat (Request.M r)).

(** [0 >= 0]: the loop body runs at least once. *)
Lemma float_enters : geb (zero : float) zero = true.
Proof. reflexivity. Qed.

(** On numbers the exit test of the loop is [u < v]. *)
Lemma exit_test_lt (u v : float) :
  in_unit u = true → in_unit v = true → exit_test u v = (u <? v).
Proof.
  intros Hu%in_unit_number Hv%in_unit_number. unfold exit_test. simpl.
  destruct (v <=? u) eqn:E; simpl.
  - destruct (u <? v) eqn:E'; [|done]. apply lt_exit in E'. congruence.
  - symmetry. by apply exit_lt.
Qed.

Lemma draw_pair_in_unit g u v g' :
  (∀ a b g0, in_unit (beta_sample jStat a b g0).1 = true) →
  draw_pair jStat r g = (u, v, g') →
  in_unit u = true ∧ in_unit v = true.
Proof.
  intros Hc.
  assert (Hd : ∀ a b g0 x g1, beta_sample jStat a b g0 = (x, g1) →
                              in_unit x = true).
  { intros a b g0 x g1 E. specialize (Hc a b g0). by rewrite E in Hc. }
  unfold draw_pair.
  destruct (beta_sample jStat _ _ g) as [u1 g1] eqn:E1.
  destruct (beta_sample jStat _ _ g1) as [v1 g2] eqn:E2.
  intros [= <- <- <-]. split; eauto.
Qed.

Lemma passes_exit_lt g :
  (∀ a b g0, in_unit (beta_sample jStat a b g0).1 = true) →
  passes jStat r exit_test g = passes jStat r PrimFloat.ltb g.
Proof.
  intros Hc. unfold passes.
  destruct (draw_pair jStat r g) as [[u v] g'] eqn:E.
  destruct (draw_pair_in_unit _ _ _ _ Hc E). by apply exit_test_lt.
Qed.




(** Division by a quotient of a zero total. *)
Lemma div_zero_total (total len x : float) :
  PrimFloat.is_zero total = true → non_finite (x / (total / len)) = true.
Proof.
  intros [s Hz]%is_zero_spec.
  destruct (zero_div total len s Hz) as [[s' Hq]| ->].
  - by apply (div_zero_non_finite _ _ s').
  - by rewrite div_nan_r.
Qed.
End Binary64Program.

(** ** The program in exact arithmetic *)

Section ExactProgram.
Context {rng : Type} (jStat : JStat R rng).
Variable r : Request.t R.
Local Open Scope R_scope.

Local Abbreviation N := (default 1000%nat (Request.N r)).
Local Abbreviation M := (default 1000%nat (Request.M r)).

Lemma real_enters : geb (zero : R) zero = true.
Proof. apply bool_decide_eq_true_2. simpl. lra. Qed.




Lemma plain_sum_nonneg (xs : list R) :
  Forall (λ x, 0 <= x) xs → 0 <= plain_sum xs.
Proof.
  induction xs as [|x xs IH] using rev_ind;
    [intros _; unfold plain_sum; simpl; lra|].
  intros Hall. apply Forall_app in Hall as [Hxs Hx].
  apply Forall_inv in Hx. specialize (IH Hxs).
  unfold plain_sum in *. rewrite foldl_snoc.
  set (sum := foldl _ _ xs) in *. simpl. lra.
Qed.



End ExactProgram.

(** The concrete source in exact arithmetic: one sample, drawn at once. *)
Lemma uniform_sampler :
  validation_sampler Uniform.jStat (Uniform.request 1 1) 1 0
  = Some ((Samples [1 / 4] [3 / 4] [1])%R, 2).
Proof.
  unfold validation_sampler. simpl. unfold sample_step.
  rewrite rejection_loop_unfold, real_enters. simpl.
  unfold Uniform.draw. simpl.
  rewrite bool_decide_eq_false_2 by lra. simpl.
  unfold push. simpl. do 4 f_equal. field.
Qed.



(** ** The summary statistics in exact arithmetic *)

Section SummaryExact.
Local Open Scope R_scope.

Lemma INR_2 : INR 2 = 2.
Proof. simpl. lra. Qed.

Lemma real_or_zero (x : option R) : Summary.or_zero x = default 0 x.
Proof.
  destruct x as [x|]; [|done]. simpl. by case_bool_decide; subst.
Qed.

(** The three blocks of the loop body are [threshold_block]. *)
Lemma step_lower data c alpha st i :
  Summary.lower (Summary.step data c alpha st i)
  = threshold_block c (alpha / 2) (Summary.lower st) i.
Proof.
  unfold Summary.step, threshold_block. real_ops. rewrite INR_2.
  destruct (data !! i) as [x|]; [destruct (gtb x _)|]; reflexivity.
Qed.

Lemma step_upper data c alpha st i :
  Summary.upper (Summary.step data c alpha st i)
  = threshold_block c (1 - alpha / 2) (Summary.upper st) i.
Proof.
  unfold Summary.step, threshold_block. real_ops. rewrite INR_2.
  destruct (data !! i) as [x|]; [destruct (gtb x _)|]; reflexivity.
Qed.

Lemma step_median data c alpha st i :
  Summary.median (Summary.step data c alpha st i)
  = threshold_block c (1 / 2) (Summary.median st) i.
Proof.
  unfold Summary.step, threshold_block. real_ops. rewrite INR_2.
  destruct (data !! i) as [x|]; [destruct (gtb x _)|]; reflexivity.
Qed.

Lemma found_nonneg c tau x : found c tau x → 0 <= x.
Proof.
  intros [[-> _]|(j & cj & cj' & _ & _ & _ & _ & [Hx _] & _)]; [lra|].
  pose proof (pos_INR j). lra.
Qed.

(** One pass of a block keeps the invariant of the search. *)
Lemma threshold_block_step c tau x m :
  (m < length c)%nat →
  (x = -1 ∧ Forall (λ ci, ci <= tau) (take m c)) ∨ found c tau x →
  (threshold_block c tau x m = -1
   ∧ Forall (λ ci, ci <= tau) (take (S m) c))
  ∨ found c tau (threshold_block c tau x m).
Proof.
  intros Hm [[-> Hall]|Hf]; unfold threshold_block.
  - destruct (lookup_lt_is_Some_2 c m Hm) as [cm Em].
    assert (Hget : array_get c m = cm) by (unfold array_get; by rewrite Em).
    rewrite !Hget. simpl.
    rewrite bool_decide_eq_true_2 by done. simpl.
    case_bool_decide as Hgt.
    + right. destruct m as [|j].
      * left. rewrite decide_False by lia. simpl. split; [lra|].
        exists cm. split; [done|lra].
      * right. rewrite decide_True by lia.
        destruct (lookup_lt_is_Some_2 c j) as [cj Ej]; [lia|].
        assert (Hcj : cj <= tau).
        { apply (Forall_lookup_1 (λ ci, ci <= tau) _ j cj Hall).
          rewrite lookup_take_lt by lia. done. }
        replace (S j - 1)%nat with j by lia.
        assert (Hget' : array_get c j = cj)
          by (unfold array_get; by rewrite Ej).
        rewrite Hget'. exists j, cj, cm. rewrite S_INR.
        assert (Hd : 0 < cm - cj) by lra.
        assert (Hfr : 0 < (cm - tau) / (cm - cj) <= 1).
        { split; [apply Rdiv_lt_0_compat; lra|].
          apply (Rmult_le_reg_r (cm - cj)); [lra|].
          unfold Rdiv. rewrite Rmult_assoc, Rinv_l by lra. lra. }
        repeat split; try done; try lra. field. lra.
    + left. split; [done|].
      rewrite (take_S_r _ _ _ Em). apply Forall_app. split; [done|].
      apply Forall_singleton. lra.
  - right. pose proof (found_nonneg _ _ _ Hf).
    assert (loose_eq x (-1) = false) as ->
      by (apply bool_decide_eq_false_2; lra).
    done.
Qed.

(** The largest entry so far and its first index. *)
Lemma mode_step data alpha c st m :
  (Summary.mode st = -1 ∧ Summary.max st = -1
   ∧ Forall (λ y, y <= -1) (take m data))
  ∨ (∃ i, Summary.mode st = INR i ∧ data !! i = Some (Summary.max st)
      ∧ -1 < Summary.max st
      ∧ Forall (λ y, y <= Summary.max st) (take m data)
      ∧ Forall (λ y, y < Summary.max st) (take i data)) →
  let st' := Summary.step data c alpha st m in
  (Summary.mode st' = -1 ∧ Summary.max st' = -1
   ∧ Forall (λ y, y <= -1) (take (S m) data))
  ∨ (∃ i, Summary.mode st' = INR i ∧ data !! i = Some (Summary.max st')
      ∧ -1 < Summary.max st'
      ∧ Forall (λ y, y <= Summary.max st') (take (S m) data)
      ∧ Forall (λ y, y < Summary.max st') (take i data)).
Proof.
  intros Hinv. unfold Summary.step. cbv zeta.
  destruct (data !! m) as [x|] eqn:Em.
  - rewrite (take_S_r _ _ _ Em). simpl. case_bool_decide as Hgt; simpl.
    + right. exists m. split; [done|]. split; [done|].
      destruct Hinv as [(_ & Hmax & Hall)|(i & _ & _ & Hpos & Hall & _)].
      * rewrite Hmax in Hgt. split; [lra|]. split.
        -- apply Forall_app. split; [|apply Forall_singleton; lra].
           eapply Forall_impl; [exact Hall|]. simpl. intros; lra.
        -- eapply Forall_impl; [exact Hall|]. simpl. intros; lra.
      * split; [lra|]. split.
        -- apply Forall_app. split; [|apply Forall_singleton; lra].
           eapply Forall_impl; [exact Hall|]. simpl. intros; lra.
        -- eapply Forall_impl; [exact Hall|]. simpl. intros; lra.
    + destruct Hinv as [(Hmo & Hmax & Hall)|(i & Hmo & Hi & Hpos & Hall & Hlt)].
      * left. split; [done|]. split; [done|].
        apply Forall_app. split; [done|]. apply Forall_singleton.
        rewrite Hmax in Hgt. lra.
      * right. exists i. repeat split; try done.
        apply Forall_app. split; [done|]. apply Forall_singleton. lra.
  - apply lookup_ge_None in Em.
    rewrite (take_ge data (S m)) by lia.
    rewrite (take_ge data m) in Hinv by lia. exact Hinv.
Qed.

(** The state of the loop after [m] passes. *)
Lemma summary_loop data c alpha m :
  (m <= length c)%nat →
  let st := foldl (Summary.step data c alpha)
              (Summary.Locals (-1) (-1) (-1) (-1) (-1)) (seq 0 m) in
  ((Summary.lower st = -1 ∧ Forall (λ ci, ci <= alpha / 2) (take m c))
   ∨ found c (alpha / 2) (Summary.lower st)) ∧
  ((Summary.upper st = -1 ∧ Forall (λ ci, ci <= 1 - alpha / 2) (take m c))
   ∨ found c (1 - alpha / 2) (Summary.upper st)) ∧
  ((Summary.median st = -1 ∧ Forall (λ ci, ci <= 1 / 2) (take m c))
   ∨ found c (1 / 2) (Summary.median st)) ∧
  ((Summary.mode st = -1 ∧ Summary.max st = -1
    ∧ Forall (λ y, y <= -1) (take m data))
   ∨ (∃ i, Summary.mode st = INR i ∧ data !! i = Some (Summary.max st)
       ∧ -1 < Summary.max st
       ∧ Forall (λ y, y <= Summary.max st) (take m data)
       ∧ Forall (λ y, y < Summary.max st) (take i data))).
Proof.
  intros Hm. induction m as [|m IH].
  - simpl. repeat split; left; repeat split; constructor.
  - cbv zeta in *. rewrite seq_S, foldl_snoc. cbn [Nat.add].
    destruct IH as (Hlo & Hup & Hmed & Hmode); [lia|].
    set (st := foldl _ _ (seq 0 m)) in *.
    rewrite step_lower, step_upper, step_median.
    split; [apply threshold_block_step; [lia|done]|].
    split; [apply threshold_block_step; [lia|done]|].
    split; [apply threshold_block_step; [lia|done]|].
    by apply mode_step.
Qed.

Lemma plain_sum_snoc (l : list R) x : plain_sum (l ++ [x]) = plain_sum l + x.
Proof. unfold plain_sum. by rewrite foldl_snoc. Qed.

(** The running sums of [reduce]: after [m] elements, the partial sums
    of the first [1..m] entries, each divided by the length. *)
Lemma cumsum_prefix (data : list R) m :
  (m <= length data)%nat →
  foldl (λ acc ix, Summary.cumsum_step (INR (length data)) acc ix.2 ix.1)
    [] (take m (zip (seq 0 (length data)) data))
  = (λ i, plain_sum (take (S i) data) / INR (length data)) <$> seq 0 m.
Proof.
  induction m as [|m IH]; intros Hm; [done|].
  destruct (lookup_lt_is_Some_2 data m) as [x Ex]; [lia|].
  assert (Ez : zip (seq 0 (length data)) data !! m = Some (m, x)).
  { apply lookup_zip_with_Some. exists m, x. repeat split; [|done].
    apply lookup_seq_lt. lia. }
  rewrite (take_S_r _ _ _ Ez), foldl_snoc, IH by lia. cbn [fst snd].
  rewrite seq_S, fmap_snoc. cbn [Nat.add]. unfold Summary.cumsum_step.
  do 2 f_equal. rewrite real_or_zero.
  rewrite (take_S_r _ _ _ Ex), plain_sum_snoc.
  assert (Hprev : default 0
            (Summary.before
               ((λ i, plain_sum (take (S i) data) / INR (length data))
                  <$> seq 0 m) m)
          = plain_sum (take m data) / INR (length data)).
  { destruct m as [|j]; simpl.
    - unfold plain_sum. simpl. unfold Rdiv. ring.
    - change (plain_sum (take 1 data) / INR (length data)
              :: list_fmap nat R
                   (λ i, plain_sum (take (S i) data) / INR (length data))
                   (seq 1 j))
        with ((λ i, plain_sum (take (S i) data) / INR (length data))
                <$> seq 0 (S j)).
      rewrite list_lookup_fmap, lookup_seq_lt by lia. done. }
  rewrite Hprev. real_ops. unfold Rdiv. ring.
Qed.

Lemma cumsum_exact (data : list R) :
  Summary.cumsum data
  = (λ i, plain_sum (take i data) / INR (length data))
      <$> seq 0 (S (length data)).
Proof.
  unfold Summary.cumsum, Summary.reduce. cbv zeta. real_ops.
  rewrite <- (take_ge (zip _ data) (length data))
    by (rewrite length_zip_with, length_seq; lia).
  rewrite cumsum_prefix by lia. simpl. f_equal.
  - unfold plain_sum. simpl. unfold Rdiv. ring.
  - by rewrite <- fmap_S_seq, <- list_fmap_compose.
Qed.

Lemma cumsum_length (data : list R) :
  length (Summary.cumsum data) = S (length data).
Proof. by rewrite cumsum_exact, length_fmap, length_seq. Qed.

Lemma cumsum_lookup (data : list R) i :
  (i <= length data)%nat →
  Summary.cumsum data !! i
  = Some (plain_sum (take i data) / INR (length data)).
Proof.
  intros Hi. rewrite cumsum_exact, list_lookup_fmap, lookup_seq_lt by lia.
  done.
Qed.

(** What [summaryStats] returns, in terms of the cumulative sums. *)
Lemma summaryStats_spec data alpha :
  ∃ lo up med mo,
    Summary.summaryStats data alpha = [lo; up; med; mo] ∧
    crossing (Summary.cumsum data) (alpha / 2) lo ∧
    crossing (Summary.cumsum data) (1 - alpha / 2) up ∧
    crossing (Summary.cumsum data) (1 / 2) med ∧
    first_maximum data mo.
Proof.
  destruct (summary_loop data (Summary.cumsum data) alpha
              (length (Summary.cumsum data)))
    as (Hlo & Hup & Hmed & Hmode); [lia|].
  rewrite take_ge in Hlo, Hup, Hmed by lia.
  rewrite (take_ge data) in Hmode by (rewrite cumsum_length; lia).
  eexists _, _, _, _. split; [reflexivity|].
  repeat split; try done.
  destruct Hmode as [(Hmo & _ & Hall)|(i & Hmo & Hi & Hpos & Hall & Hlt)].
  - by left.
  - right. by exists i, (Summary.max
      (foldl (Summary.step data (Summary.cumsum data) alpha)
         (Summary.Locals (-1) (-1) (-1) (-1) (-1))
         (seq 0 (length (Summary.cumsum data))))).
Qed.

(** A larger threshold is crossed later. *)
Lemma crossing_mono c tau1 tau2 x1 x2 :
  tau1 <= tau2 → crossing c tau1 x1 → crossing c tau2 x2 →
  x2 ≠ -1 → x1 ≠ -1 ∧ x1 <= x2.
Proof.
  intros Ht H1 [[-> _]|H2] Hx2; [done|].
  pose proof (found_nonneg _ _ _ H2) as Hpos2.
  destruct H2 as [(-> & c0 & E0 & Hc0)
                 |(j2 & a2 & b2 & Ea2 & Eb2 & Hall2 & Hb2 & Hx & Heq2)].
  - destruct H1 as [[-> Hall]|[(-> & _)
                 |(j1 & a1 & b1 & Ea1 & Eb1 & Hall1 & _)]].
    + pose proof (Forall_lookup_1 (λ ci, ci <= tau1) _ _ _ Hall E0). lra.
    + split; lra.
    + assert (E0' : take (S j1) c !! 0%nat = Some c0)
        by (rewrite lookup_take_lt by lia; done).
      pose proof (Forall_lookup_1 (λ ci, ci <= tau1) _ _ _ Hall1 E0'). lra.
  - destruct H1 as [[-> Hall]|[(-> & _)
                 |(j1 & a1 & b1 & Ea1 & Eb1 & Hall1 & Hb1 & Hx1 & Heq1)]].
    + pose proof (Forall_lookup_1 (λ ci, ci <= tau1) _ _ _ Hall Eb2). lra.
    + pose proof (pos_INR j2). split; lra.
    + assert (Hpos1 : 0 <= INR j1) by apply pos_INR.
      split; [lra|].
      destruct (lt_eq_lt_dec j1 j2) as [[Hlt| ->]|Hgt].
      * assert (INR (S j1) <= INR j2) by (apply le_INR; lia). lra.
      * rewrite Ea1 in Ea2. injection Ea2 as ->.
        rewrite Eb1 in Eb2. injection Eb2 as ->.
        assert (Ha : a2 <= tau1).
        { apply (Forall_lookup_1 (λ ci, ci <= tau1) _ j2 a2 Hall1).
          rewrite lookup_take_lt by lia. done. }
        nra.
      * assert (Eb2' : take (S j1) c !! S j2 = Some b2)
          by (rewrite lookup_take_lt by lia; done).
        pose proof (Forall_lookup_1 (λ ci, ci <= tau1) _ _ _ Hall1 Eb2').
        lra.
Qed.

Lemma plain_sum_app (l k : list R) :
  plain_sum (l ++ k) = plain_sum l + plain_sum k.
Proof.
  induction k as [|x k IH] using rev_ind.
  - rewrite app_nil_r. unfold plain_sum at 3. simpl. lra.
  - rewrite app_assoc, !plain_sum_snoc, IH. lra.
Qed.

Lemma plain_sum_take_le (data : list R) i :
  Forall (λ x, 0 <= x) data → plain_sum (take i data) <= plain_sum data.
Proof.
  intros Hall. rewrite <- (take_drop i data) at 2. rewrite plain_sum_app.
  assert (0 <= plain_sum (drop i data)); [|lra].
  apply plain_sum_nonneg. rewrite <- (take_drop i data) in Hall.
  by apply Forall_app in Hall as [_ ?].
Qed.

Lemma cumsum_head (data : list R) : Summary.cumsum data !! 0%nat = Some 0.
Proof. done. Qed.

Lemma cumsum_last (data : list R) :
  Summary.cumsum data !! length data
  = Some (plain_sum data / INR (length data)).
Proof. rewrite cumsum_lookup by lia. by rewrite take_ge by lia. Qed.

(** A cumulative sum above the threshold rules out the answer [-1]. *)
Lemma crossing_found c tau x i ci :
  crossing c tau x → c !! i = Some ci → tau < ci → found c tau x.
Proof.
  intros [[_ Hall]|Hf] Ei Hci; [|done].
  pose proof (Forall_lookup_1 (λ ci, ci <= tau) _ _ _ Hall Ei). lra.
Qed.

(** Where a statistic can lie. *)
Lemma found_range (data : list R) tau x :
  found (Summary.cumsum data) tau x →
  0 <= x <= INR (length data) ∧ (0 <= tau → x < INR (length data)).
Proof.
  intros [(-> & c0 & [= <-] & Hc0)
         |(j & cj & cj' & _ & Ej & _ & _ & [Hx1 Hx2] & _)].
  - pose proof (pos_INR (length data)). split; [lra|]. intros; lra.
  - apply lookup_lt_Some in Ej. rewrite cumsum_length in Ej.
    assert (INR (S j) <= INR (length data)) by (apply le_INR; lia).
    pose proof (pos_INR j). split; [lra|]. intros; lra.
Qed.

End SummaryExact.

(** ** Binary64: how special values spread *)

Section Binary64Special.
Local Open Scope float_scope.

Lemma SFcompare_refl x : x ≠ S754_nan → SFcompare x x = Some Eq.
Proof.
  destruct x as [s|s| |s m e]; try done; intros _; simpl;
    try (by destruct s).
  rewrite Z.compare_refl, Pos.compare_cont_refl. by destruct s.
Qed.

Lemma non_finite_iff x : non_finite x = true ↔ sf_special (Prim2SF x).
Proof.
  split; [|apply non_finite_spec].
  unfold non_finite, PrimFloat.is_nan, PrimFloat.is_infinity.
  rewrite !FloatAxioms.eqb_spec, abs_spec.
  change (Prim2SF infinity) with (S754_infinity false).
  destruct (Prim2SF x) as [s|s| |s m e] eqn:E; try done.
  unfold SFeqb. rewrite SFcompare_refl by done. done.
Qed.

Lemma special_nan : sf_special (Prim2SF nan).
Proof. done. Qed.

Lemma special_mul_r x y :
  sf_special (Prim2SF x) → sf_special (Prim2SF (y * x)).
Proof.
  rewrite FloatAxioms.mul_spec.
  by destruct (Prim2SF x) as [|sx| |], (Prim2SF y) as [|sy| |].
Qed.

Lemma special_sub_l x y :
  sf_special (Prim2SF x) → sf_special (Prim2SF (x - y)).
Proof.
  rewrite FloatAxioms.sub_spec.
  destruct (Prim2SF x) as [|sx| |], (Prim2SF y) as [|sy| |]; try done;
    by destruct sx, sy.
Qed.

Lemma special_add_l x y :
  sf_special (Prim2SF x) → sf_special (Prim2SF (x + y)).
Proof.
  rewrite FloatAxioms.add_spec.
  destruct (Prim2SF x) as [|sx| |], (Prim2SF y) as [|sy| |]; try done;
    by destruct sx, sy.
Qed.

Lemma special_add_r x y :
  sf_special (Prim2SF y) → sf_special (Prim2SF (x + y)).
Proof.
  rewrite FloatAxioms.add_spec.
  destruct (Prim2SF x) as [|sx| |], (Prim2SF y) as [|sy| |]; try done;
    by destruct sx, sy.
Qed.

Lemma special_div_l x y :
  sf_special (Prim2SF x) → sf_special (Prim2SF (x / y)).
Proof.
  rewrite FloatAxioms.div_spec.
  by destruct (Prim2SF x) as [|sx| |], (Prim2SF y) as [|sy| |].
Qed.

(** A special value divided by a special value is [NaN]. *)
Lemma special_div_special x y :
  sf_special (Prim2SF x) → sf_special (Prim2SF y) → x / y = nan.
Proof.
  intros Hx Hy. apply Prim2SF_nan_inv. rewrite FloatAxioms.div_spec.
  by destruct (Prim2SF x) as [|sx| |], (Prim2SF y) as [|sy| |].
Qed.

(** A zero divided by a zero or by [NaN] is [NaN]. *)
Lemma zero_div_zero_total (len : float) : 0 / (0 / len) = nan.
Proof.
  destruct (zero_div 0 len false eq_refl) as [[s Hq]| ->].
  - apply Prim2SF_nan_inv. rewrite FloatAxioms.div_spec, Hq. done.
  - apply div_nan_r.
Qed.

Lemma ltb_nan_r x : (x <? nan) = false.
Proof.
  rewrite FloatAxioms.ltb_spec. change (Prim2SF nan) with S754_nan.
  by destruct (Prim2SF x).
Qed.

(** Once the value of the accumulator is special it stays special, and a
    special term makes it special. *)
Lemma acc_add_special (a : accumulator float) x :
  sf_special (Prim2SF (value a)) ∨ sf_special (Prim2SF x) →
  sf_special (Prim2SF (value (acc_add a x))).
Proof.
  unfold acc_add. simpl. intros [Ha|Hx].
  - by apply special_add_l.
  - by apply special_add_r, special_sub_l.
Qed.

Lemma foldl_acc_add_special (xs : list float) (a : accumulator float) :
  sf_special (Prim2SF (value a))
  ∨ Exists (λ x, sf_special (Prim2SF x)) xs →
  sf_special (Prim2SF (value (foldl acc_add a xs))).
Proof.
  revert a. induction xs as [|x xs IH]; intros a Hs.
  - destruct Hs as [Ha|Hex]; [done|]. by apply Exists_nil in Hex.
  - simpl. apply IH. destruct Hs as [Ha|Hex].
    + left. apply acc_add_special. by left.
    + apply Exists_cons in Hex as [Hx|Hex]; [|by right].
      left. apply acc_add_special. by right.
Qed.

Lemma compensated_sum_special (xs : list float) :
  Exists (λ x, sf_special (Prim2SF x)) xs →
  sf_special (Prim2SF (compensated_sum xs)).
Proof. intros Hex. apply foldl_acc_add_special. by right. Qed.

(** Adding zeros leaves the accumulator at zero. *)
Lemma acc_sum_zeros (xs : list float) :
  Forall (λ x, x = 0) xs → acc_sum xs = Acc 0 0.
Proof.
  induction xs as [|x xs IH] using rev_ind; [done|].
  intros Hall. apply Forall_app in Hall as [Hxs Hx].
  apply Forall_inv in Hx as ->.
  unfold acc_sum in *. rewrite foldl_snoc, IH by done. reflexivity.
Qed.

Lemma fmap_constant {A} (f : A → float) (c : float) (l : list A) :
  (∀ x, x ∈ l → f x = c) → f <$> l = replicate (length l) c.
Proof.
  induction l as [|x l IH]; intros Hf; [done|]. simpl.
  rewrite Hf by left. f_equal. apply IH. intros y Hy. apply Hf. by right.
Qed.
End Binary64Special.

(** ** Degenerate runs of the binary64 program *)

Section Binary64Degenerate.
Context {rng : Type} (jStat : JStat float rng).
Variable r : Request.t float.
Local Open Scope float_scope.

Local Abbreviation N := (default 1000%nat (Request.N r)).
Local Abbreviation M := (default 1000%nat (Request.M r)).

Lemma is_nan_inv x : PrimFloat.is_nan x = true → x = nan.
Proof.
  unfold PrimFloat.is_nan. rewrite FloatAxioms.eqb_spec. intros E.
  apply Prim2SF_nan_inv.
  destruct (Prim2SF x) as [s|s| |s m e] eqn:Ex; [..|done|];
    unfold SFeqb in E; by rewrite SFcompare_refl in E.
Qed.

(** A zero or [NaN] denominator makes the Jacobian factor special. *)
Lemma jacobian_special u v :
  (let D := ibeta jStat (1 - u) (Request.n r - Request.k r + 1)
              (Request.k r + 1)
            - ibeta jStat (1 - v) (Request.n r - Request.k r + 1)
                (Request.k r + 1) in
   PrimFloat.is_zero D || PrimFloat.is_nan D = true) →
  sf_special (Prim2SF (jacobian jStat r u v)).
Proof.
  cbv zeta.
  set (D := ibeta jStat (1 - u) _ _ - ibeta jStat (1 - v) _ _).
  intros HD. change (jacobian jStat r u v) with ((v - u) / D).
  apply orb_true_iff in HD as [[s Hz]%is_zero_spec|HD%is_nan_inv].
  - apply non_finite_iff. by apply (div_zero_non_finite _ _ s).
  - by rewrite HD, div_nan_r.
Qed.

(** With one special Jacobian factor among the samples, every raw density
    value is special. *)
Lemma raw_density_special (s : samples float) j :
  Exists (λ x : ValidationSample float, sf_special (Prim2SF x.2.2))
    (sample_list s) →
  sf_special (Prim2SF (raw_density jStat r s j)).
Proof.
  intros Hex. apply compensated_sum_special, Exists_fmap.
  eapply Exists_impl; [exact Hex|].
  intros [u [v duv]] Hd. simpl in *. by apply special_mul_r.
Qed.

Lemma posterior_special fuel g s g' :
  validation_sampler jStat r fuel g = Some (s, g') →
  Exists (λ x : ValidationSample float, sf_special (Prim2SF x.2.2))
    (sample_list s) →
  posterior jStat r fuel g = Some (replicate (S M) nan).
Proof.
  intros E Hex.
  destruct (posterior_returns jStat r _ _ _ _ E) as (-> & -> & ->).
  f_equal.
  rewrite (fmap_constant _ nan).
  - by rewrite length_fmap, length_seq.
  - intros x (j & -> & _)%list_elem_of_fmap.
    apply special_div_special; [by apply raw_density_special|].
    apply special_div_l, compensated_sum_special.
    cbn [seq fmap list_fmap]. apply Exists_cons_hd.
    by apply raw_density_special.
Qed.

Lemma posterior_empty fuel g :
  Request.N r = Some 0%nat →
  posterior jStat r fuel g = Some (replicate (S M) nan).
Proof.
  intros HN.
  assert (E : validation_sampler jStat r fuel g = Some (Samples [] [] [], g))
    by (unfold validation_sampler; by rewrite HN).
  destruct (posterior_returns jStat r _ _ _ _ E) as (-> & -> & ->).
  f_equal.
  assert (Hraw : raw_density jStat r (Samples [] [] []) <$> seq 0 (S M)
                 = replicate (S M) 0).
  { rewrite (fmap_constant _ 0); [by rewrite length_seq|done]. }
  rewrite Hraw. unfold compensated_sum.
  rewrite acc_sum_zeros by (by apply Forall_replicate).
  rewrite (fmap_constant _ nan).
  - by rewrite length_replicate.
  - intros x ->%elem_of_replicate_inv. apply zero_div_zero_total.
Qed.
End Binary64Degenerate.

(** ** The summary statistics of an array of [NaN] *)

Section SummaryNaN.
Local Open Scope float_scope.

Lemma foldl_fixed {A B} (f : A → B → A) (a : A) (l : list B) :
  (∀ x, x ∈ l → f a x = a) → foldl f a l = a.
Proof.
  induction l as [|x l IH]; intros Hf; [done|]. simpl.
  rewrite Hf by left. apply IH. intros y Hy. apply Hf. by right.
Qed.

Lemma cumsum_nan_prefix (n m : nat) :
  (m <= n)%nat →
  foldl (λ acc ix,
           Summary.cumsum_step (of_nat n) acc ix.2 ix.1)
    [] (take m (zip (seq 0 n) (replicate n nan)))
  = replicate m nan.
Proof.
  induction m as [|m IH]; intros Hm; [done|].
  assert (Ez : zip (seq 0 n) (replicate n nan) !! m = Some (m, nan)).
  { apply lookup_zip_with_Some. exists m, nan. repeat split.
    - apply lookup_seq_lt. lia.
    - apply lookup_replicate_2. lia. }
  rewrite (take_S_r _ _ _ Ez), foldl_snoc, IH by lia.
  unfold Summary.cumsum_step. cbn [fst snd]. simpl add. simpl div.
  by rewrite div_nan_l, add_nan_l, replicate_S_end.
Qed.

Lemma cumsum_nan (n : nat) :
  Summary.cumsum (replicate n nan) = 0 :: replicate n nan.
Proof.
  unfold Summary.cumsum, Summary.reduce. cbv zeta.
  rewrite length_replicate.
  rewrite <- (take_ge (zip _ (replicate n nan)) n)
    by (rewrite length_zip_with, length_seq, length_replicate; lia).
  by rewrite cumsum_nan_prefix.
Qed.

Lemma summary_nan (n : nat) alpha :
  (alpha / 2 <? 0) = false →
  (1 - alpha / 2 <? 0) = false →
  Summary.summaryStats (replicate n nan) alpha = [-1; -1; -1; -1].
Proof.
  intros Hlo Hup. unfold Summary.summaryStats. cbv zeta.
  rewrite cumsum_nan. rewrite foldl_fixed; [reflexivity|].
  intros i Hi. apply elem_of_seq in Hi as [_ Hi].
  simpl in Hi. rewrite length_replicate in Hi.
  assert (Hc : ∀ tau, (tau <? 0) = false →
            gtb (array_get (0 :: replicate n nan) i) tau = false).
  { intros tau Htau. unfold array_get. destruct i as [|i]; [done|].
    simpl. rewrite lookup_replicate_2 by lia. simpl. apply ltb_nan_r. }
  assert (H1 : (array_get (0 :: replicate n nan) i
                >? alpha / of_nat 2)%js = false) by (apply Hc, Hlo).
  assert (H2 : (array_get (0 :: replicate n nan) i
                >? one - alpha / of_nat 2)%js = false) by (apply Hc, Hup).
  assert (H3 : (array_get (0 :: replicate n nan) i
                >? one / of_nat 2)%js = false) by (by apply Hc).
  unfold Summary.step. rewrite H1, H2, H3, !andb_false_r.
  destruct (replicate n nan !! i) as [x|] eqn:Ex; [|reflexivity].
  apply lookup_replicate_1 in Ex as [-> _].
  assert (H4 : ∀ y : float, (nan >? y)%js = false)
    by (intros y; apply ltb_nan_r).
  by rewrite H4.
Qed.
End SummaryNaN.

(** ** Facts about the trimming step, for every number instance *)

Section ChartFacts.
Context {num : Type} `{JSCompare num}.
Variable math_max : list num → num.
Variables (data : list num) (lower upper : num).
Local Open Scope js_scope.

Local Abbreviation thresh := (Chart.thresh math_max data).
Local Abbreviation begin := (Chart.begin math_max data lower).
Local Abbreviation end_ := (Chart.end_ math_max data lower upper).
Local Abbreviation front_guard := (Chart.front_guard math_max data lower).
Local Abbreviation back_guard :=
  (Chart.back_guard math_max data lower upper).

Lemma advance_unfold fuel b :
  Chart.advance math_max data lower fuel b
  = if front_guard b then
      match fuel with
      | O => b
      | S fuel' => Chart.advance math_max data lower fuel' (S b)
      end
    else b.
Proof. by destruct fuel. Qed.

Lemma retreat_unfold fuel e :
  Chart.retreat math_max data lower upper fuel e
  = if back_guard e then
      match fuel with
      | O => e
      | S fuel' => Chart.retreat math_max data lower upper fuel' (e - 1)
      end
    else e.
Proof. by destruct fuel. Qed.

Lemma front_guard_true b :
  front_guard b = true → b < length data ∧ (Chart.cut_in_front math_max data lower) b.
Proof.
  unfold Chart.front_guard, Chart.cut_in_front.
  intros [[Hb%bool_decide_eq_true_1 ?]%andb_true_iff ?]%andb_true_iff.
  done.
Qed.

Lemma back_guard_true e :
  back_guard e = true → (Z.of_nat begin < e)%Z ∧ (Chart.cut_at_back math_max data upper) e.
Proof.
  unfold Chart.back_guard, Chart.cut_at_back.
  intros [[Hb%bool_decide_eq_true_1 ?]%andb_true_iff ?]%andb_true_iff.
  done.
Qed.

(** The first loop: where it stops and what it stepped over. *)
Lemma advance_spec fuel b :
  b ≤ length data →
  let b' := Chart.advance math_max data lower fuel b in
  b ≤ b' ∧ b' ≤ length data ∧
  Forall (Chart.cut_in_front math_max data lower) (seq b (b' - b)) ∧
  (length data - b ≤ fuel → front_guard b' = false).
Proof.
  revert b. induction fuel as [|fuel IH]; intros b Hb; cbv zeta;
    rewrite advance_unfold; destruct (front_guard b) eqn:Hg.
  - apply front_guard_true in Hg as [Hlt _].
    rewrite Nat.sub_diag. repeat split; try done; lia.
  - rewrite Nat.sub_diag. by repeat split.
  - apply front_guard_true in Hg as [Hlt Hcut].
    destruct (IH (S b)) as (H1 & H2 & H3 & H4); [lia|].
    set (b' := Chart.advance _ _ _ fuel (S b)) in *.
    repeat split; try lia.
    + replace (b' - b)%nat with (S (b' - S b)) by lia. by constructor.
    + intros Hf. apply H4. lia.
  - rewrite Nat.sub_diag. by repeat split.
Qed.

Lemma begin_spec :
  begin ≤ length data ∧ Forall (Chart.cut_in_front math_max data lower) (seq 0 begin)
  ∧ front_guard begin = false.
Proof.
  destruct (advance_spec (length data) 0) as (_ & H2 & H3 & H4); [lia|].
  rewrite Nat.sub_0_r in H3. split; [done|]. split; [done|].
  apply H4. lia.
Qed.

(** The second loop. *)
Lemma retreat_spec fuel e :
  (-1 ≤ e)%Z →
  let e' := Chart.retreat math_max data lower upper fuel e in
  (e' ≤ e)%Z ∧ (-1 ≤ e')%Z ∧ (e' = e ∨ Z.of_nat begin ≤ e')%Z ∧
  Forall (Chart.cut_at_back math_max data upper) (seqZ (e' + 1) (e - e')) ∧
  ((e ≤ Z.of_nat fuel)%Z → back_guard e' = false).
Proof.
  revert e. induction fuel as [|fuel IH]; intros e He; cbv zeta;
    rewrite retreat_unfold; destruct (back_guard e) eqn:Hg.
  - apply back_guard_true in Hg as [Hlt _].
    rewrite Z.sub_diag. repeat split; try done; lia.
  - rewrite Z.sub_diag. repeat split; try done; lia.
  - apply back_guard_true in Hg as [Hlt Hcut].
    destruct (IH (e - 1)%Z) as (H1 & H2 & H3 & H4 & H5); [lia|].
    set (e' := Chart.retreat _ _ _ _ fuel (e - 1)%Z) in *.
    repeat split; try lia.
    + replace (e - e')%Z with ((e - 1 - e') + 1)%Z by lia.
      rewrite seqZ_app by lia. apply Forall_app. split; [done|].
      replace (e' + 1 + (e - 1 - e'))%Z with e by lia.
      change (seqZ e 1) with [e]. by apply Forall_singleton.
    + intros Hf. apply H5. lia.
  - rewrite Z.sub_diag. repeat split; try done; lia.
Qed.

Lemma end_spec :
  (-1 ≤ end_)%Z ∧ (end_ < Z.of_nat (length data))%Z ∧
  (end_ = Z.of_nat (length data) - 1 ∨ Z.of_nat begin ≤ end_)%Z ∧
  Forall (Chart.cut_at_back math_max data upper) (seqZ (end_ + 1) (Z.of_nat (length data) - 1 - end_))
  ∧ back_guard end_ = false.
Proof.
  destruct (retreat_spec (length data) (Z.of_nat (length data) - 1))
    as (H1 & H2 & H3 & H4 & H5); [lia|].
  fold end_ in H1, H2, H3, H4, H5.
  split; [done|]. split; [lia|]. split; [done|]. split; [done|].
  apply H5. lia.
Qed.

Lemma of_int_of_nat (j : nat) : Chart.of_int (Z.of_nat j) = of_nat j.
Proof.
  destruct j as [|j]; [done|]. simpl. by rewrite SuccNat2Pos.id_succ.
Qed.

(** The two loops never cross: [begin <= end + 1]. *)
Lemma trim_range : (Z.of_nat begin ≤ end_ + 1)%Z.
Proof.
  destruct begin_spec as (Hb & _). destruct end_spec as (_ & _ & He & _).
  lia.
Qed.

(** An index that fails a condition of each loop lies in the slice. *)
Lemma kept (j : nat) :
  j < length data →
  ¬ Chart.cut_in_front math_max data lower j →
  ¬ Chart.cut_at_back math_max data upper (Z.of_nat j) →
  begin ≤ j ∧ (Z.of_nat j ≤ end_)%Z.
Proof.
  intros Hj Hfront Hback.
  destruct begin_spec as (_ & Hcut & _).
  destruct end_spec as (_ & _ & _ & Hcut' & _).
  rewrite Forall_seq in Hcut. rewrite Forall_seqZ in Hcut'. split.
  - destruct (decide (begin ≤ j)) as [|Hn]; [done|].
    destruct Hfront. apply Hcut. lia.
  - destruct (decide (Z.of_nat j ≤ end_)%Z) as [|Hn]; [done|].
    destruct Hback. apply Hcut'. lia.
Qed.

Lemma trimmed_lookup (j : nat) :
  begin ≤ j → (Z.of_nat j ≤ end_)%Z →
  Chart.trimmed math_max data lower upper !! (j - begin)%nat = data !! j.
Proof.
  intros Hb He. unfold Chart.trimmed, Chart.slice.
  rewrite lookup_take_lt by lia. rewrite lookup_drop. f_equal. lia.
Qed.

Lemma trimmed_length :
  length (Chart.trimmed math_max data lower upper)
  = Z.to_nat (end_ + 1 - Z.of_nat begin).
Proof.
  unfold Chart.trimmed, Chart.slice.
  destruct begin_spec as (Hb & _). destruct end_spec as (He1 & He2 & _).
  rewrite length_take, length_drop. lia.
Qed.

Lemma trimmed_split :
  data = take begin data ++ Chart.trimmed math_max data lower upper
         ++ drop (Z.to_nat (end_ + 1)) data.
Proof.
  pose proof trim_range as Hr. unfold Chart.trimmed, Chart.slice.
  rewrite <- (take_drop begin data) at 1. f_equal.
  rewrite <- (take_drop (Z.to_nat (end_ + 1) - begin) (drop begin data))
    at 1.
  f_equal. rewrite drop_drop. f_equal. lia.
Qed.
End ChartFacts.

(** Trimming on binary64. *)
Section ChartFloat.
Local Open Scope float_scope.

Lemma ltb_nan_l x : (nan <? x) = false.
Proof. rewrite FloatAxioms.ltb_spec. by change (Prim2SF nan) with S754_nan. Qed.

Lemma nan_lookup (data : list float) j :
  Forall (λ x, PrimFloat.is_nan x = true) data →
  j < length data → array_get data j = nan.
Proof.
  intros Hall Hj. unfold array_get.
  destruct (lookup_lt_is_Some_2 data j Hj) as [x Hx]. rewrite Hx. simpl.
  apply is_nan_inv. by apply (Forall_lookup_1 _ _ _ _ Hall Hx).
Qed.
End ChartFloat.

(** * The claims *)

(** ** Claims that hold for every number instance *)

Section GenericClaims.
Context {num : Type} `{JSNumber num} {rng : Type} (jStat : JStat num rng).
Variable r : Request.t num.
Local Open Scope js_scope.

Local Abbreviation N := (default 1000 (Request.N r)).
Local Abbreviation M := (default 1000 (Request.M r)).

(** C3. Once the sampling stage has returned the [N] samples, the grid
    loop leaves at [pdf[j]], for every [j] in [0..M], the compensated sum
    over all samples of [BetaPdf(u + (j/M)(v - u); k+1, n-k+1) * duv],
    not divided by [N]; [total] is the compensated sum of the entries of
    [pdf], accumulated the same way; and these are the array and the total
    that [posterior] normalises. The accumulator [acc_add] subtracts the
    compensation of the previous addition from the next term. *)
Theorem raw_density_compensated fuel g s g' :
  validation_sampler jStat r fuel g = Some (s, g') →
  ∃ pdf total ct,
    grid_loop jStat r s = (pdf, total, ct) ∧
    length (sample_list s) = N ∧
    length pdf = S M ∧
    (∀ j, j ≤ M →
       pdf !! j
       = Some (compensated_sum
                 (density_term jStat r (of_nat j / of_nat M)
                    <$> sample_list s))) ∧
    total = compensated_sum pdf ∧
    ct = compensation (acc_sum pdf) ∧
    posterior jStat r fuel g = Some (normalize r pdf total).
Proof.
  intros E. pose proof (validation_sampler_parallel _ _ _ _ _ _ E) as Hp.
  pose proof (grid_loop_spec jStat r s Hp) as Hg. cbv zeta in Hg.
  eexists _, _, _. split; [exact Hg|].
  split; [by apply sample_list_length|].
  split; [by rewrite length_fmap, length_seq|].
  split; [|split; [done|split; [done|]]].
  - intros j Hj. rewrite list_lookup_fmap, lookup_seq_lt by lia. done.
  - unfold posterior. rewrite E. cbn [mbind option_bind]. by rewrite Hg.
Qed.

(** C8. Whatever [N] and [M] are, when the sampling stage has returned,
    [posterior] returns an array of exactly [M+1] entries. *)
Theorem output_length fuel g s g' :
  validation_sampler jStat r fuel g = Some (s, g') →
  ∃ pdf, posterior jStat r fuel g = Some pdf ∧ length pdf = S M.
Proof.
  intros E. destruct (posterior_returns jStat r _ _ _ _ E) as (Hraw & _ & ->).
  eexists. split; [done|].
  by rewrite length_fmap, Hraw, length_fmap, length_seq.
Qed.

(** C9. Two calls on the same request whose random sources yield the same
    draws return the same array, however long their rejection loops were
    allowed to run. [same_draws] relates two states of the source from
    which all draws agree. *)
Theorem posterior_deterministic (same_draws : rng → rng → Prop)
    fuel1 fuel2 g1 g2 pdf1 pdf2 :
  (∀ a b g1 g2, same_draws g1 g2 →
     (beta_sample jStat a b g1).1 = (beta_sample jStat a b g2).1 ∧
     same_draws (beta_sample jStat a b g1).2 (beta_sample jStat a b g2).2) →
  same_draws g1 g2 →
  posterior jStat r fuel1 g1 = Some pdf1 →
  posterior jStat r fuel2 g2 = Some pdf2 →
  pdf1 = pdf2.
Proof. intros Hstep. by apply posterior_sim. Qed.
End GenericClaims.

Lemma raw_density_compensated_witness :
  ∃ pdf total ct,
    grid_loop Cyclic.jStat (Cyclic.request 2 2)
      (Samples [0.25; 0.25] [0.75; 0.75] [1; 1])%float = (pdf, total, ct) ∧
    length (sample_list (Samples [0.25; 0.25] [0.75; 0.75] [1; 1])%float) = 2 ∧
    length pdf = 3 ∧
    (∀ j, j ≤ 2 →
       pdf !! j
       = Some (compensated_sum
                 (density_term Cyclic.jStat (Cyclic.request 2 2)
                    (of_nat j / of_nat 2)%js
                    <$> sample_list
                          (Samples [0.25; 0.25] [0.75; 0.75] [1; 1])%float))) ∧
    total = compensated_sum pdf ∧
    ct = compensation (acc_sum pdf) ∧
    posterior Cyclic.jStat (Cyclic.request 2 2) 2 0
    = Some (normalize (Cyclic.request 2 2) pdf total).
Proof.
  apply (raw_density_compensated Cyclic.jStat (Cyclic.request 2 2) 2 0 _ 8).
  vm_compute. reflexivity.
Defined.

Lemma output_length_witness :
  ∃ pdf, posterior Cyclic.jStat (Cyclic.request 2 0) 2 0 = Some pdf
         ∧ length pdf = 1.
Proof.
  apply (output_length Cyclic.jStat (Cyclic.request 2 0) 2 0
           (Samples [0.25; 0.25] [0.75; 0.75] [1; 1])%float 8).
  vm_compute. reflexivity.
Defined.

Lemma posterior_deterministic_witness :
  default [] (posterior Cyclic.jStat (Cyclic.request 2 2) 2 0)
  = default [] (posterior Cyclic.jStat (Cyclic.request 2 2) 5 4).
Proof.
  apply (posterior_deterministic Cyclic.jStat (Cyclic.request 2 2)
           (λ g1 g2, g1 mod 4 = g2 mod 4) 2 5 0 4).
  - intros a b g1 g2 E.
    change (beta_sample Cyclic.jStat a b g1) with (Cyclic.draw g1, S g1).
    change (beta_sample Cyclic.jStat a b g2) with (Cyclic.draw g2, S g2).
    cbn [fst snd]. unfold Cyclic.draw. rewrite E. split; [reflexivity|].
    change (S g1) with (1 + g1). change (S g2) with (1 + g2).
    rewrite (Nat.Div0.add_mod 1 g1), (Nat.Div0.add_mod 1 g2), E. reflexivity.
  - reflexivity.
  - vm_compute. reflexivity.
  - vm_compute. reflexivity.
Defined.

(** ** Claims on the binary64 program *)

Section Binary64Claims.
Context {rng : Type} (jStat : JStat float rng).
Variable r : Request.t float.
Local Open Scope float_scope.

Local Abbreviation N := (default 1000%nat (Request.N r)).
Local Abbreviation M := (default 1000%nat (Request.M r)).

(** C2. With a sampler that returns numbers of [[0,1]], every sample the
    sampling stage retains has [0 <= us[i] < vs[i] <= 1], for every index
    [i] below [N]: [us[i]] and [vs[i]] were drawn together, in one pass of
    the loop body, and the loop was left because the guard [u >= v]
    failed on them. *)
Theorem retained_samples_ordered fuel g s g' :
  (∀ a b g0, in_unit (beta_sample jStat a b g0).1 = true) →
  validation_sampler jStat r fuel g = Some (s, g') →
  ∀ i, i < N →
    ∃ u v, us s !! i = Some u ∧ vs s !! i = Some v ∧
           (∃ g0 g1, draw_pair jStat r g0 = (u, v, g1)) ∧
           (0 <=? u) = true ∧ (u <? v) = true ∧ (v <=? 1) = true.
Proof.
  intros Hc E i Hi.
  destruct (validation_sampler_spec jStat r float_enters
    (λ x, (∃ g0 g1, draw_pair jStat r g0 = (x.1, x.2.1, g1)) ∧
          in_unit x.1 = true ∧ in_unit x.2.1 = true ∧
          (x.1 <? x.2.1) = true)
    fuel g s g') as [Hp Hall]; [|done|].
  { intros g0 u v g1 Ed Hex. simpl.
    destruct (draw_pair_in_unit jStat r _ _ _ _ Hc Ed) as [Hu Hv].
    repeat split; try done; [by exists g0, g1|].
    apply exit_lt; [by apply in_unit_number..|done]. }
  destruct (sample_list_lookup s N i Hp Hi) as (u & v & d & Eu & Ev & _ & El).
  destruct (Forall_lookup_1 _ _ _ _ Hall El) as (Hd & Hu & Hv & Hlt).
  simpl in *. unfold in_unit in *.
  apply andb_true_iff in Hu as [? ?]. apply andb_true_iff in Hv as [? ?].
  by exists u, v.
Qed.

(** C6. No input makes [posterior] fail: once the samples are drawn it
    returns an array of [M+1] entries. When the accumulated [total] is a
    zero, the normalisation divides by zero and every entry returned is
    [NaN] or an infinity. *)
Theorem zero_total_non_finite fuel g s g' :
  validation_sampler jStat r fuel g = Some (s, g') →
  ∃ pdf, posterior jStat r fuel g = Some pdf ∧ length pdf = S M ∧
         (PrimFloat.is_zero (grid_loop jStat r s).1.2 = true →
          Forall (λ x, non_finite x = true) pdf).
Proof.
  intros E. destruct (posterior_returns jStat r _ _ _ _ E) as (Hraw & _ & ->).
  eexists. split; [done|]. split.
  - by rewrite length_fmap, Hraw, length_fmap, length_seq.
  - intros Hz. apply Forall_fmap, Forall_forall. intros x _. simpl.
    by apply div_zero_total.
Qed.

(** C7. With a sampler that returns numbers of [[0,1]], [posterior]
    returns exactly when, for each of the [N] samples in turn, the source
    yields a pair with [u < v]; and a rejection loop that may run [m+1]
    times returns the first such pair whatever the number [m] of pairs
    rejected before it: there is no cap, and no failure to report. *)
Theorem returns_iff_source_yields g :
  (∀ a b g0, in_unit (beta_sample jStat a b g0).1 = true) →
  ((∃ fuel pdf, posterior jStat r fuel g = Some pdf)
   ↔ yields jStat r PrimFloat.ltb N g) ∧
  (∀ m g0, first_accept_at jStat r PrimFloat.ltb m g0 = true →
     rejection_loop jStat r (S m) 0 0 g0
     = Some (draw_pair jStat r (after_draws jStat r m g0))).
Proof.
  intros Hc. split.
  - rewrite (posterior_returns_iff jStat r g float_enters). split.
    + apply yields_ext. intros g0. by apply passes_exit_lt.
    + apply yields_ext. intros g0. symmetry. by apply passes_exit_lt.
  - intros m g0 Hf.
    apply (rejection_loop_complete jStat r m _ _ g0 float_enters).
    rewrite <- Hf. apply first_accept_at_ext.
    intros g1. by apply passes_exit_lt.
Qed.

End Binary64Claims.

Lemma cyclic_in_unit a b g :
  in_unit (beta_sample Cyclic.jStat a b g).1 = true.
Proof.
  change (beta_sample Cyclic.jStat a b g) with (Cyclic.draw g, S g).
  cbn [fst]. unfold Cyclic.draw. by destruct (g mod 4) as [|[|[|?]]].
Defined.

Lemma retained_samples_ordered_witness :
  ∃ u v, [0.25; 0.25]%float !! 1 = Some u ∧ [0.75; 0.75]%float !! 1 = Some v ∧
         (∃ g0 g1,
            draw_pair Cyclic.jStat (Cyclic.request 2 2) g0 = (u, v, g1)) ∧
         (0 <=? u)%float = true ∧ (u <? v)%float = true ∧
         (v <=? 1)%float = true.
Proof.
  apply (retained_samples_ordered Cyclic.jStat (Cyclic.request 2 2) 2 0
           (Samples [0.25; 0.25] [0.75; 0.75] [1; 1])%float 8).
  - exact cyclic_in_unit.
  - vm_compute. reflexivity.
  - simpl. lia.
Defined.

Lemma zero_total_non_finite_witness :
  ∃ pdf, posterior Cyclic.jStat (Cyclic.request 0 1) 0 0 = Some pdf ∧
         length pdf = 2 ∧
         (PrimFloat.is_zero
            (grid_loop Cyclic.jStat (Cyclic.request 0 1) (Samples [] [] [])).1.2
          = true →
          Forall (λ x, non_finite x = true) pdf).
Proof.
  apply (zero_total_non_finite Cyclic.jStat (Cyclic.request 0 1) 0 0
           (Samples [] [] []) 0).
  vm_compute. reflexivity.
Defined.

Lemma returns_iff_source_yields_witness :
  ((∃ fuel pdf, posterior Cyclic.jStat (Cyclic.request 2 2) fuel 0 = Some pdf)
   ↔ yields Cyclic.jStat (Cyclic.request 2 2) PrimFloat.ltb 2 0) ∧
  (∀ m g0,
     first_accept_at Cyclic.jStat (Cyclic.request 2 2) PrimFloat.ltb m g0
     = true →
     rejection_loop Cyclic.jStat (Cyclic.request 2 2) (S m) 0%float 0%float g0
     = Some (draw_pair Cyclic.jStat (Cyclic.request 2 2)
               (after_draws Cyclic.jStat (Cyclic.request 2 2) m g0))).
Proof.
  apply (returns_iff_source_yields Cyclic.jStat (Cyclic.request 2 2) 0).
  exact cyclic_in_unit.
Defined.



(** ** Claims on the program in exact arithmetic *)

Section ExactClaims.
Context {rng : Type} (jStat : JStat R rng).
Variable r : Request.t R.
Local Open Scope R_scope.

Local Abbreviation n := (Request.n r).
Local Abbreviation k := (Request.k r).
Local Abbreviation N := (default 1000%nat (Request.N r)).
Local Abbreviation M := (default 1000%nat (Request.M r)).


(** C4. Every retained sample has [duv = (v - u) / (Bu - Bv)] with
    [Bu = I_{1-u}(n-k+1, k+1)] and [Bv = I_{1-v}(n-k+1, k+1)]; when the
    regularized incomplete beta function satisfies
    [I_x(a,b) = 1 - I_{1-x}(b,a)], this is, in exact arithmetic,
    [(v - u) / (I_v(k+1, n-k+1) - I_u(k+1, n-k+1))]. *)
Theorem jacobian_direct_form fuel g s g' :
  (∀ x a b, ibeta jStat x a b = 1 - ibeta jStat (1 - x) b a) →
  validation_sampler jStat r fuel g = Some (s, g') →
  length (sample_list s) = N ∧
  Forall (λ x : ValidationSample R,
    let '(u, (v, duv)) := x in
    duv = (v - u) / (ibeta jStat (1 - u) (n - k + 1) (k + 1)
                     - ibeta jStat (1 - v) (n - k + 1) (k + 1)) ∧
    duv = (v - u) / (ibeta jStat v (k + 1) (n - k + 1)
                     - ibeta jStat u (k + 1) (n - k + 1)))
    (sample_list s).
Proof.
  intros Hsym E.
  destruct (validation_sampler_spec jStat r real_enters
    (λ x : ValidationSample R,
       let '(u, (v, duv)) := x in
       duv = (v - u) / (ibeta jStat (1 - u) (n - k + 1) (k + 1)
                        - ibeta jStat (1 - v) (n - k + 1) (k + 1)) ∧
       duv = (v - u) / (ibeta jStat v (k + 1) (n - k + 1)
                        - ibeta jStat u (k + 1) (n - k + 1)))
    fuel g s g') as [Hp Hall]; [|done|].
  - intros g0 u v g1 _ _. split; [done|].
    unfold jacobian. simpl.
    rewrite (Hsym (1 - u)), (Hsym (1 - v)).
    replace (1 - (1 - u)) with u by lra.
    replace (1 - (1 - v)) with v by lra.
    f_equal. lra.
  - split; [by apply sample_list_length|done].
Qed.

End ExactClaims.


Lemma jacobian_direct_form_witness :
  length (sample_list (Samples [1 / 4] [3 / 4] [1])%R) = 1 ∧
  Forall (λ x : ValidationSample R,
    let '(u, (v, duv)) := x in
    duv = ((v - u) / ((1 - u) - (1 - v)))%R ∧
    duv = ((v - u) / (v - u))%R)
    (sample_list (Samples [1 / 4] [3 / 4] [1])%R).
Proof.
  apply (jacobian_direct_form Uniform.jStat (Uniform.request 1 1) 1 0
           (Samples [1 / 4] [3 / 4] [1])%R 2).
  - intros x a b. simpl. lra.
  - exact uniform_sampler.
Defined.


(** * Further properties of the code *)

(** ** [posterior] on binary64: degenerate runs *)

Section PosteriorEdges.
Context {rng : Type} (jStat : JStat float rng).
Variable r : Request.t float.
Local Open Scope float_scope.

Local Abbreviation n := (Request.n r).
Local Abbreviation k := (Request.k r).
Local Abbreviation M := (default 1000%nat (Request.M r)).

(** X1. With [N = 0] no sample is drawn and the source is left untouched;
    every raw density value and the total are [0], and [posterior]
    returns [M+1] times [NaN], whatever the other parameters are. *)
Theorem posterior_without_samples fuel g :
  Request.N r = Some 0%nat →
  validation_sampler jStat r fuel g = Some (Samples [] [] [], g) ∧
  posterior jStat r fuel g = Some (replicate (S M) nan).
Proof.
  intros HN. split; [|by apply posterior_empty].
  unfold validation_sampler. by rewrite HN.
Qed.

(** X2. One retained sample whose denominator [Bu - Bv] is a zero or [NaN]
    is enough to turn the whole result into [NaN]: its Jacobian factor is
    an infinity or [NaN], and so are every raw density value and the
    total. *)
Theorem degenerate_sample_gives_nan fuel g s g' :
  validation_sampler jStat r fuel g = Some (s, g') →
  (∃ i u v, us s !! i = Some u ∧ vs s !! i = Some v ∧
     let D := ibeta jStat (1 - u) (n - k + 1) (k + 1)
              - ibeta jStat (1 - v) (n - k + 1) (k + 1) in
     PrimFloat.is_zero D || PrimFloat.is_nan D = true) →
  posterior jStat r fuel g = Some (replicate (S M) nan).
Proof.
  intros E (i & u & v & Eu & Ev & HD).
  apply (posterior_special jStat r fuel g s g' E).
  destruct (validation_sampler_spec jStat r float_enters
    (λ x, x.2.2 = jacobian jStat r x.1 x.2.1) fuel g s g')
    as [Hp Hall]; [done|done|].
  assert (Hi : (i < default 1000%nat (Request.N r))%nat).
  { destruct Hp as [<- _]. by apply lookup_lt_Some in Eu. }
  destruct (sample_list_lookup s _ i Hp Hi)
    as (u' & v' & d & Eu' & Ev' & _ & El).
  rewrite Eu in Eu'. injection Eu' as <-.
  rewrite Ev in Ev'. injection Ev' as <-.
  apply Exists_exists. exists (u, (v, d)).
  split; [by eapply list_elem_of_lookup_2|].
  pose proof (Forall_lookup_1 _ _ _ _ Hall El) as Hd. simpl in Hd.
  simpl. rewrite Hd. by apply jacobian_special.
Qed.
End PosteriorEdges.

Lemma posterior_without_samples_witness :
  validation_sampler Cyclic.jStat (Cyclic.request 0 2) 3 7
  = Some (Samples [] [] [], 7) ∧
  posterior Cyclic.jStat (Cyclic.request 0 2) 3 7 = Some (replicate 3 nan).
Proof.
  apply (posterior_without_samples Cyclic.jStat (Cyclic.request 0 2) 3 7).
  reflexivity.
Defined.

Lemma degenerate_sample_gives_nan_witness :
  posterior Degenerate.jStat (Cyclic.request 1 2) 1 0
  = Some (replicate 3 nan).
Proof.
  apply (degenerate_sample_gives_nan Degenerate.jStat (Cyclic.request 1 2)
           1 0 (Samples [0x1p-70] [0x1p-69] [infinity])%float 2).
  - vm_compute. reflexivity.
  - exists 0, 0x1p-70%float, 0x1p-69%float.
    repeat split.
Defined.

(** ** [summaryStats] in exact arithmetic *)

Section SummaryProperties.
Local Open Scope R_scope.

(** X3. The array [cumsum] that [reduce] and [unshift] build has one entry
    more than [data]; its entry [i] is the sum of the first [i] entries
    of [data] divided by the length of [data]. *)
Theorem cumsum_partial_sums (data : list R) :
  Summary.cumsum data
  = (λ i, plain_sum (take i data) / INR (length data))
      <$> seq 0 (S (length data)).
Proof. apply cumsum_exact. Qed.

(** X4. [lower], [upper] and [median] are each [-1] when no cumulative sum
    exceeds the threshold ([alpha/2], [1 - alpha/2], [1/2]), and otherwise
    the place where the cumulative sums, joined by straight lines, first
    exceed it ([found]). *)
Theorem summary_thresholds (data : list R) alpha :
  ∃ lo up med mo,
    Summary.summaryStats data alpha = [lo; up; med; mo] ∧
    crossing (Summary.cumsum data) (alpha / 2) lo ∧
    crossing (Summary.cumsum data) (1 - alpha / 2) up ∧
    crossing (Summary.cumsum data) (1 / 2) med.
Proof.
  destruct (summaryStats_spec data alpha)
    as (lo & up & med & mo & E & Hlo & Hup & Hmed & _).
  by exists lo, up, med, mo.
Qed.

(** X5. [mode] is [-1] when no entry of [data] exceeds [-1], and otherwise
    the index of the first entry that is the largest. *)
Theorem summary_mode (data : list R) alpha :
  ∃ lo up med mo,
    Summary.summaryStats data alpha = [lo; up; med; mo] ∧
    first_maximum data mo.
Proof.
  destruct (summaryStats_spec data alpha)
    as (lo & up & med & mo & E & _ & _ & _ & Hmo).
  by exists lo, up, med, mo.
Qed.

(** X6. For [alpha <= 1], whenever [upper] is found so are [median] and
    [lower], and [0 <= lower <= median <= upper <= data.length]. *)
Theorem summary_ordered (data : list R) alpha :
  alpha <= 1 →
  ∃ lo up med mo,
    Summary.summaryStats data alpha = [lo; up; med; mo] ∧
    (up ≠ -1 →
     lo ≠ -1 ∧ med ≠ -1 ∧
     0 <= lo ∧ lo <= med ∧ med <= up ∧ up <= INR (length data)).
Proof.
  intros Ha.
  destruct (summaryStats_spec data alpha)
    as (lo & up & med & mo & E & Hlo & Hup & Hmed & _).
  exists lo, up, med, mo. split; [done|]. intros Hx.
  destruct (crossing_mono _ (1 / 2) (1 - alpha / 2) _ _
              ltac:(lra) Hmed Hup Hx) as [Hm Hmu].
  destruct (crossing_mono _ (alpha / 2) (1 / 2) _ _
              ltac:(lra) Hlo Hmed Hm) as [Hl Hlm].
  destruct Hlo as [[-> _]|Hlo]; [done|].
  destruct Hup as [[-> _]|Hup]; [done|].
  pose proof (found_nonneg _ _ _ Hlo).
  destruct (found_range _ _ _ Hup) as [[_ ?] _].
  repeat split; done.
Qed.

(** X7. On an array whose mean is [1], as [posterior] returns, and for
    [0 < alpha <= 1], all three statistics are found and
    [0 <= lower <= median <= upper < data.length]. *)
Theorem summary_of_normalized (data : list R) alpha :
  plain_sum data / INR (length data) = 1 →
  0 < alpha → alpha <= 1 →
  ∃ lo up med mo,
    Summary.summaryStats data alpha = [lo; up; med; mo] ∧
    0 <= lo ∧ lo <= med ∧ med <= up ∧ up < INR (length data).
Proof.
  intros Hmean Ha0 Ha1.
  destruct (summaryStats_spec data alpha)
    as (lo & up & med & mo & E & Hlo & Hup & Hmed & _).
  exists lo, up, med, mo. split; [done|].
  pose proof (cumsum_last data) as Hlast. rewrite Hmean in Hlast.
  assert (Hfu : found (Summary.cumsum data) (1 - alpha / 2) up)
    by (apply (crossing_found _ _ _ _ _ Hup Hlast); lra).
  pose proof (found_nonneg _ _ _ Hfu).
  destruct (found_range _ _ _ Hfu) as [_ Hlt].
  assert (Hx : up ≠ -1) by lra.
  destruct (crossing_mono _ (1 / 2) (1 - alpha / 2) _ _
              ltac:(lra) Hmed Hup Hx) as [Hm Hmu].
  destruct (crossing_mono _ (alpha / 2) (1 / 2) _ _
              ltac:(lra) Hlo Hmed Hm) as [Hl Hlm].
  destruct Hlo as [[-> _]|Hlo]; [done|].
  pose proof (found_nonneg _ _ _ Hlo).
  repeat split; try done. apply Hlt. lra.
Qed.

(** X8. With [alpha = 0] (a 100% interval) on a nonnegative array whose mean
    is [1], no cumulative sum exceeds [1]: [upper] is not found and is
    returned as [-1]. *)
Theorem summary_full_interval (data : list R) :
  Forall (λ x, 0 <= x) data →
  plain_sum data / INR (length data) = 1 →
  ∃ lo med mo, Summary.summaryStats data 0 = [lo; -1; med; mo].
Proof.
  intros Hpos Hmean.
  destruct (summaryStats_spec data 0)
    as (lo & up & med & mo & E & _ & Hup & _).
  exists lo, med, mo. rewrite E. do 2 f_equal.
  assert (Hlen : 0 < INR (length data)).
  { destruct data as [|x data]; [|apply lt_0_INR; simpl; lia].
    unfold plain_sum in Hmean. simpl in Hmean. lra. }
  assert (Hle : ∀ i ci, Summary.cumsum data !! i = Some ci → ci <= 1).
  { intros i ci Ei. pose proof (lookup_lt_Some _ _ _ Ei) as Hi.
    rewrite cumsum_length in Hi. rewrite cumsum_lookup in Ei by lia.
    injection Ei as <-. rewrite <- Hmean.
    apply Rmult_le_compat_r; [apply Rlt_le, Rinv_0_lt_compat; lra|].
    by apply plain_sum_take_le. }
  destruct Hup as [[-> _]|[(_ & c0 & E0 & Hc0)
                          |(j & cj & cj' & _ & Ej & _ & Hc & _)]];
    [done| |].
  - pose proof (Hle _ _ E0). lra.
  - pose proof (Hle _ _ Ej). lra.
Qed.

(** X9. On the empty array, for [0 <= alpha <= 2], nothing is found. *)
Theorem summary_empty alpha :
  0 <= alpha → alpha <= 2 →
  Summary.summaryStats [] alpha = [-1; -1; -1; -1].
Proof.
  intros Ha0 Ha2.
  destruct (summaryStats_spec [] alpha)
    as (lo & up & med & mo & E & Hlo & Hup & Hmed & Hmo).
  rewrite E.
  assert (Hnone : ∀ tau x, 0 <= tau →
            crossing (Summary.cumsum []) tau x → x = -1).
  { intros tau x Htau [[-> _]|Hf]; [done|].
    destruct (found_range [] _ _ Hf) as [[? ?] Hlt].
    specialize (Hlt Htau). simpl in *. lra. }
  rewrite (Hnone (alpha / 2) lo ltac:(lra) Hlo),
    (Hnone (1 - alpha / 2) up ltac:(lra) Hup),
    (Hnone (1 / 2) med ltac:(lra) Hmed).
  destruct Hmo as [[-> _]|(i & x & _ & Ei & _)]; done.
Qed.

End SummaryProperties.

Lemma summary_ordered_witness :
  ∃ lo up med mo,
    Summary.summaryStats [1; 3]%R (1 / 2)%R = [lo; up; med; mo] ∧
    (up ≠ (-1)%R →
     lo ≠ (-1)%R ∧ med ≠ (-1)%R ∧
     (0 <= lo)%R ∧ (lo <= med)%R ∧ (med <= up)%R ∧
     (up <= INR (length [1; 3]%R))%R).
Proof. apply (summary_ordered [1; 3]%R (1 / 2)%R). lra. Defined.

Lemma summary_of_normalized_witness :
  ∃ lo up med mo,
    Summary.summaryStats [1 / 2; 3 / 2]%R (1 / 2)%R = [lo; up; med; mo] ∧
    (0 <= lo)%R ∧ (lo <= med)%R ∧ (med <= up)%R ∧
    (up < INR (length [1 / 2; 3 / 2]%R))%R.
Proof.
  apply (summary_of_normalized [1 / 2; 3 / 2]%R (1 / 2)%R).
  - unfold plain_sum. simpl. lra.
  - lra.
  - lra.
Defined.

Lemma summary_full_interval_witness :
  ∃ lo med mo,
    Summary.summaryStats [1 / 2; 3 / 2]%R 0%R = [lo; (-1)%R; med; mo].
Proof.
  apply (summary_full_interval [1 / 2; 3 / 2]%R).
  - repeat constructor; lra.
  - unfold plain_sum. simpl. lra.
Defined.

Lemma summary_empty_witness :
  Summary.summaryStats [] 1%R = [-1; -1; -1; -1]%R.
Proof. apply (summary_empty 1%R); lra. Defined.


(** ** [summaryStats] on binary64: an array of [NaN] *)

Section SummaryEdges.
Local Open Scope float_scope.

(** X11. On an array of [NaN], as [posterior] returns on a degenerate run, no
    comparison succeeds: when the thresholds [alpha/2] and [1 - alpha/2]
    are not negative, [summaryStats] returns [[-1, -1, -1, -1]]. *)
Theorem summary_of_nan (n : nat) alpha :
  (alpha / 2 <? 0) = false →
  (1 - alpha / 2 <? 0) = false →
  Summary.cumsum (replicate n nan) = 0 :: replicate n nan ∧
  Summary.summaryStats (replicate n nan) alpha = [-1; -1; -1; -1].
Proof.
  intros Hlo Hup. split; [apply cumsum_nan|by apply summary_nan].
Qed.

(** X12. [summaryStats(posterior(params), alpha)] with [N = 0]: the density is
    all [NaN] and the statistics are all [-1]. *)
Theorem summary_of_posterior_without_samples {rng : Type}
    (jStat : JStat float rng) (r : Request.t float) fuel g alpha :
  Request.N r = Some 0%nat →
  (alpha / 2 <? 0) = false →
  (1 - alpha / 2 <? 0) = false →
  ∃ pdf, posterior jStat r fuel g = Some pdf ∧
         Summary.summaryStats pdf alpha = [-1; -1; -1; -1].
Proof.
  intros HN Hlo Hup. eexists. split; [by apply posterior_empty|].
  by apply summary_nan.
Qed.
End SummaryEdges.

Lemma summary_of_nan_witness :
  Summary.cumsum (replicate 3 nan) = 0%float :: replicate 3 nan ∧
  Summary.summaryStats (replicate 3 nan) 0.5%float
  = [-1; -1; -1; -1]%float.
Proof. apply (summary_of_nan 3 0.5%float); reflexivity. Defined.

Lemma summary_of_posterior_without_samples_witness :
  ∃ pdf, posterior Cyclic.jStat (Cyclic.request 0 2) 0 0 = Some pdf ∧
         Summary.summaryStats pdf 0.5%float = [-1; -1; -1; -1]%float.
Proof.
  apply (summary_of_posterior_without_samples Cyclic.jStat
           (Cyclic.request 0 2) 0 0 0.5%float); reflexivity.
Defined.

(** ** The trimming step of [updateChart] *)

Section ChartTrim.
Context {num str : Type} `{JSCompare num}.
Variable math_max : list num → num.
Variable toFixed : num → nat → str.
Variables (data : list num) (lower upper weight : num).
Local Open Scope js_scope.

(** X13. [updateChart] pushes one label for every entry of the trimmed array:
    the loop over [i = begin .. end] that fills [config.data.labels] runs
    as many times as [data.slice(begin, end+1)] has entries. *)
Theorem labels_match_trimmed_data :
  length (Chart.labels math_max toFixed data lower upper weight)
  = length (Chart.trimmed math_max data lower upper).
Proof.
  unfold Chart.labels. by rewrite length_fmap, length_seq, trimmed_length.
Qed.

(** X14. The two loops of [updateChart] cut a prefix and a suffix of the array
    and nothing else, they never cross ([begin <= end + 1]), every index
    cut in front is below [lower] and holds an entry below [max / 1000],
    every index cut at the back is above [upper] and holds an entry below
    [max / 1000], and both loops stop because their conditions fail,
    within [data.length] steps. *)
Theorem trimming_cuts_negligible_ends :
  let b := Chart.begin math_max data lower in
  let e := Chart.end_ math_max data lower upper in
  data = take b data ++ Chart.trimmed math_max data lower upper
         ++ drop (Z.to_nat (e + 1)) data ∧
  (Z.of_nat b ≤ e + 1 ≤ Z.of_nat (length data))%Z ∧
  Forall (Chart.cut_in_front math_max data lower) (seq 0 b) ∧
  Forall (Chart.cut_at_back math_max data upper)
         (seqZ (e + 1) (Z.of_nat (length data) - 1 - e)) ∧
  Chart.front_guard math_max data lower b = false ∧
  Chart.back_guard math_max data lower upper e = false.
Proof.
  cbv zeta.
  destruct (begin_spec math_max data lower) as (Hb & Hfront & Hg).
  destruct (end_spec math_max data lower upper)
    as (He1 & He2 & _ & Hback & Hg').
  pose proof (trim_range math_max data lower upper) as Hr.
  split; [apply trimmed_split|]. split; [lia|]. done.
Qed.

(** X15. An entry that is not below [max / 1000] is never trimmed away: it is
    found in the trimmed array, [begin] places further to the front. *)
Theorem entry_above_threshold_kept (j : nat) (x : num) :
  data !! j = Some x →
  (x <? Chart.thresh math_max data) = false →
  Chart.begin math_max data lower ≤ j ∧
  Chart.trimmed math_max data lower upper
    !! (j - Chart.begin math_max data lower)%nat = Some x.
Proof.
  intros Hx Hlt.
  assert (Hj : j < length data) by (by apply lookup_lt_Some in Hx).
  assert (Hget : array_get data j = x) by (unfold array_get; by rewrite Hx).
  destruct (kept math_max data lower upper j Hj) as [Hb He].
  - intros [_ Hc]. rewrite Hget in Hc. congruence.
  - intros [_ Hc]. rewrite Nat2Z.id, Hget in Hc. congruence.
  - split; [done|]. by rewrite trimmed_lookup.
Qed.

(** X16. An index that is neither below [lower] nor above [upper] is never
    trimmed away, whatever its entry. *)
Theorem index_inside_interval_kept (j : nat) :
  j < length data →
  (of_nat j <? lower) = false →
  (of_nat j >? upper) = false →
  Chart.begin math_max data lower ≤ j ∧
  Chart.trimmed math_max data lower upper
    !! (j - Chart.begin math_max data lower)%nat = data !! j.
Proof.
  intros Hj Hlo Hup.
  destruct (kept math_max data lower upper j Hj) as [Hb He].
  - intros [Hc _]. congruence.
  - intros [Hc _]. rewrite of_int_of_nat in Hc. congruence.
  - split; [done|]. by rewrite trimmed_lookup.
Qed.
End ChartTrim.

Lemma entry_above_threshold_kept_witness :
  Chart.begin ChartExample.math_max ChartExample.data 0.5%float ≤ 2 ∧
  Chart.trimmed ChartExample.math_max ChartExample.data 0.5%float 2.5%float
    !! (2 - Chart.begin ChartExample.math_max ChartExample.data 0.5%float)
  = Some 3%float.
Proof.
  apply (entry_above_threshold_kept ChartExample.math_max ChartExample.data
           0.5%float 2.5%float 2 3%float); reflexivity.
Defined.

Lemma index_inside_interval_kept_witness :
  Chart.begin ChartExample.math_max ChartExample.data 0.5%float ≤ 1 ∧
  Chart.trimmed ChartExample.math_max ChartExample.data 0.5%float 2.5%float
    !! (1 - Chart.begin ChartExample.math_max ChartExample.data 0.5%float)
  = ChartExample.data !! 1.
Proof.
  apply (index_inside_interval_kept ChartExample.math_max ChartExample.data
           0.5%float 2.5%float 1); [vm_compute; lia|reflexivity..].
Defined.

(** ** Trimming in exact arithmetic and on binary64 *)

Section ChartPeak.
Local Open Scope R_scope.

(** X17. In exact arithmetic the largest entry, when it is not negative, is
    never trimmed away; so the chart is not empty then. *)
Theorem peak_kept (math_max : list R → R) (data : list R) lower upper
    (j : nat) :
  data !! j = Some (math_max data) →
  0 <= math_max data →
  Chart.begin math_max data lower ≤ j ∧
  Chart.trimmed math_max data lower upper
    !! (j - Chart.begin math_max data lower)%nat = Some (math_max data) ∧
  Chart.trimmed math_max data lower upper ≠ [].
Proof.
  intros Hj Hpos.
  assert (Hlt : (math_max data <? Chart.thresh math_max data)%js = false).
  { unfold Chart.thresh. real_ops. apply bool_decide_eq_false_2.
    change (of_nat 1000) with (INR 1000).
    replace (INR 1000) with 1000 by (simpl; lra). lra. }
  assert (Hb : Chart.begin math_max data lower ≤ j ∧
               Chart.trimmed math_max data lower upper
                 !! (j - Chart.begin math_max data lower)%nat
               = Some (math_max data)).
  { assert (Hlen : (j < length data)%nat) by (by apply lookup_lt_Some in Hj).
    assert (Hget : array_get data j = math_max data)
      by (unfold array_get; by rewrite Hj).
    destruct (kept math_max data lower upper j Hlen) as [Hb He].
    - intros [_ Hc]. rewrite Hget in Hc. congruence.
    - intros [_ Hc]. rewrite Nat2Z.id, Hget in Hc. congruence.
    - split; [done|]. by rewrite trimmed_lookup. }
  destruct Hb as [Hb Hl]. split; [done|]. split; [done|].
  intros Hnil. by rewrite Hnil in Hl.
Qed.

(** X18. [updateChart] as a whole on the statistics: when [Math.max] returns
    the largest entry and that entry is not negative, the index [mode]
    that [summaryStats] returns survives the trimming done with the
    [lower] and [upper] of the same call, and the trimmed array holds
    the largest entry at index [mode - begin]. *)
Theorem mode_annotation_on_peak (math_max : list R → R) (data : list R)
    alpha :
  Forall (λ y, y <= math_max data) data →
  math_max data ∈ data →
  0 <= math_max data →
  ∃ lo up med mo (i : nat),
    Summary.summaryStats data alpha = [lo; up; med; mo] ∧
    mo = INR i ∧
    Chart.begin math_max data lo ≤ i ∧
    Chart.trimmed math_max data lo up
      !! (i - Chart.begin math_max data lo)%nat = Some (math_max data).
Proof.
  intros Hle Hin Hpos.
  destruct (summaryStats_spec data alpha)
    as (lo & up & med & mo & E & _ & _ & _ & Hmo).
  exists lo, up, med, mo.
  destruct Hmo as [[_ Hall]|(i & x & -> & Hi & _ & Hall & _)].
  { rewrite Forall_forall in Hall. specialize (Hall _ Hin). lra. }
  assert (Hx : x = math_max data).
  { rewrite Forall_forall in Hall. specialize (Hall _ Hin).
    pose proof (Forall_lookup_1 _ _ _ _ Hle Hi) as Hx. simpl in Hx. lra. }
  subst x. exists i. split; [done|]. split; [done|].
  assert (Hlt : (math_max data <? Chart.thresh math_max data)%js = false).
  { unfold Chart.thresh. real_ops. apply bool_decide_eq_false_2.
    change (of_nat 1000) with (INR 1000).
    replace (INR 1000) with 1000 by (simpl; lra). lra. }
  assert (Hlen : (i < length data)%nat) by (by apply lookup_lt_Some in Hi).
  assert (Hget : array_get data i = math_max data)
    by (unfold array_get; by rewrite Hi).
  destruct (kept math_max data lo up i Hlen) as [Hb He].
  - intros [_ Hc]. rewrite Hget in Hc. congruence.
  - intros [_ Hc]. rewrite Nat2Z.id, Hget in Hc. congruence.
  - split; [done|]. by rewrite trimmed_lookup.
Qed.
End ChartPeak.

Lemma peak_kept_witness :
  Chart.begin (foldr Rmax 0%R) [1; 3; 2]%R 0%R ≤ 1 ∧
  Chart.trimmed (foldr Rmax 0%R) [1; 3; 2]%R 0%R 2%R
    !! (1 - Chart.begin (foldr Rmax 0%R) [1; 3; 2]%R 0%R)
  = Some (foldr Rmax 0%R [1; 3; 2]%R) ∧
  Chart.trimmed (foldr Rmax 0%R) [1; 3; 2]%R 0%R 2%R ≠ [].
Proof.
  assert (Hmax : foldr Rmax 0%R [1; 3; 2]%R = 3%R).
  { simpl. unfold Rmax. repeat destruct Rle_dec; lra. }
  apply (peak_kept (foldr Rmax 0%R) [1; 3; 2]%R 0%R 2%R 1).
  - rewrite Hmax. reflexivity.
  - rewrite Hmax. lra.
Defined.

Lemma mode_annotation_on_peak_witness :
  ∃ lo up med mo (i : nat),
    Summary.summaryStats [1; 3; 2]%R (1/2)%R = [lo; up; med; mo] ∧
    mo = INR i ∧
    Chart.begin (foldr Rmax 0%R) [1; 3; 2]%R lo ≤ i ∧
    Chart.trimmed (foldr Rmax 0%R) [1; 3; 2]%R lo up
      !! (i - Chart.begin (foldr Rmax 0%R) [1; 3; 2]%R lo)
    = Some (foldr Rmax 0%R [1; 3; 2]%R).
Proof.
  assert (Hmax : foldr Rmax 0%R [1; 3; 2]%R = 3%R).
  { simpl. unfold Rmax. repeat destruct Rle_dec; lra. }
  apply (mode_annotation_on_peak (foldr Rmax 0%R) [1; 3; 2]%R (1/2)%R).
  - rewrite Hmax. repeat constructor; lra.
  - rewrite Hmax. apply elem_of_cons. right. apply elem_of_cons. by left.
  - rewrite Hmax. lra.
Defined.

Section ChartNaN.
Local Open Scope float_scope.

(** X19. An array of [NaN], as [posterior] returns on a degenerate run, is not
    trimmed at all: no entry compares below the threshold, whatever
    [Math.max] returns. *)
Theorem nan_array_untrimmed (math_max : list float → float)
    (data : list float) lower upper :
  Forall (λ x, PrimFloat.is_nan x = true) data →
  Chart.begin math_max data lower = 0%nat ∧
  Chart.end_ math_max data lower upper = (Z.of_nat (length data) - 1)%Z ∧
  Chart.trimmed math_max data lower upper = data.
Proof.
  intros Hall.
  assert (Hfront : Chart.front_guard math_max data lower 0 = false).
  { unfold Chart.front_guard. case_bool_decide as Hlen; [|done].
    rewrite (nan_lookup data 0 Hall Hlen).
    change (nan <? Chart.thresh math_max data)%js
      with (nan <? Chart.thresh math_max data).
    rewrite ltb_nan_l. by rewrite andb_false_r. }
  assert (Hb : Chart.begin math_max data lower = 0%nat).
  { unfold Chart.begin. by rewrite advance_unfold, Hfront. }
  assert (Hback : Chart.back_guard math_max data lower upper
                    (Z.of_nat (length data) - 1) = false).
  { unfold Chart.back_guard. rewrite Hb.
    case_bool_decide as Hlen; [|done].
    rewrite (nan_lookup data _ Hall) by lia.
    change (nan <? Chart.thresh math_max data)%js
      with (nan <? Chart.thresh math_max data).
    rewrite ltb_nan_l. by rewrite andb_false_r. }
  assert (He : Chart.end_ math_max data lower upper
               = (Z.of_nat (length data) - 1)%Z).
  { unfold Chart.end_. by rewrite retreat_unfold, Hback. }
  split; [done|]. split; [done|].
  unfold Chart.trimmed, Chart.slice. rewrite He, Hb.
  rewrite drop_0. apply take_ge. lia.
Qed.
End ChartNaN.

Lemma nan_array_untrimmed_witness :
  Chart.begin ChartExample.math_max (replicate 3 nan) 0.5%float = 0 ∧
  Chart.end_ ChartExample.math_max (replicate 3 nan) 0.5%float 2.5%float
  = (Z.of_nat (length (replicate 3 nan)) - 1)%Z ∧
  Chart.trimmed ChartExample.math_max (replicate 3 nan) 0.5%float 2.5%float
  = replicate 3 nan.
Proof.
  apply (nan_array_untrimmed ChartExample.math_max (replicate 3 nan)
           0.5%float 2.5%float).
  repeat constructor.
Defined.
